(** * Worker pool and shared-memory channel of [smhi/multiprocessing.py]

    A shallow embedding of [BaseWorker], [BaseManager],
    [serialize_to_shared_memory] and [deserialize_from_shared_memory]
    (src/smhi/multiprocessing.py, and the variant in
    src/smhi/smhi/util/multiprocessing.py), and of the code around them:
    the manager and the worker that seed the weather data
    (src/smhi/seed/station_data.py), the seeding of the weather stations
    (src/smhi/seed/station.py), the rounding of timestamps
    (src/smhi/smhi/util/time.py) and the look-up of the weather at a point
    (src/smhi/weather.py).

    The pool is a set of OS processes that share a FIFO queue and a
    lock-protected 32-bit counter.  It is modelled as an interleaving
    transition system: one atomic step per shared-memory access or external
    call, chosen by a schedule (a list of labels).  The step function is
    executable, so concrete runs can be evaluated.  What the network, the
    database and the parsers answer is a variable of the section that
    models their caller. *)

From stdpp Require Import base numbers option list strings gmap.
From Stdlib Require Import ZArith Lia.

Local Open Scope Z_scope.

(** ** The shared counter: [mp.Value('i', 0)] *)

(** Typecode ['i'] is a signed C [int]; ctypes stores without overflow
    checking, so a store keeps the low 32 bits, read back as signed. *)
Definition wrap32 (z : Z) : Z := (z + 2 ^ 31) `mod` 2 ^ 32 - 2 ^ 31.

Definition INT_MAX : Z := 2 ^ 31 - 1.
Definition INT_MIN : Z := - 2 ^ 31.

Module Pool.

(** ** Data *)

(** What a call made by a worker can do: complete, raise an [Exception]
    (only [process_job], caught at line 41), or fail with an error that
    nothing in [run] catches (the queue operations [get], [task_done] and
    [put] are proxy calls to the manager process). *)
Inductive outcome := Ok | Raise | Fault.

(** A schedule picks, at each step, the manager or worker number [i]. *)
Inductive label := Mgr | Wk (i : nat) (o : outcome).

(** [self.engine]: [None] until [get_engine()], then live until
    [dispose()]. *)
Inductive eng := NoEngine | Live | Disposed.

Section WithJob.

Context {J : Type}.

(** Program points of [BaseWorker.run] (lines of src/smhi/multiprocessing.py). *)
Inductive wpc :=
| WStart                 (* 30: self.engine = get_engine() *)
| WGet                   (* 32: job = self.job_queue.get() *)
| WAck                   (* 34: self.job_queue.task_done() *)
| WDispose               (* 35: self.engine.dispose() *)
| WProc (j : J)          (* 38: self.process_job(job) *)
| WLock (j : J)          (* 39: with self.progress_counter.get_lock() *)
| WRead (j : J)          (* 40: load of self.progress_counter.value *)
| WWrite (j : J) (v : Z) (* 40: store of v + 1 *)
| WUnlock                (* 40: leaving the with block *)
| WReput (j : J)         (* 43: self.job_queue.put(job) *)
| WDone                  (* 36: break, run returns *)
| WDead.                 (* an exception left run *)

(** A worker process.  [calls], [incs] and [sentinels] are history
    variables: the jobs passed to [process_job], the number of completed
    increments and the number of [None] items pulled.  They never
    influence a step. *)
Record worker := mk_worker {
  pc : wpc;
  engine : eng;
  calls : list J;
  incs : nat;
  sentinels : nat
}.

(** Program points of [BaseManager.run]. *)
Inductive mpc :=
| MCreate                (* 88-92: create_jobs(); if total_jobs == 0 *)
| MStart (i : nat)       (* 70-73: start_workers, i iterations done *)
| MPoll                  (* 99: while progress_counter.value < total_jobs *)
| MBar                   (* 100: bar(progress_counter.value - bar.current) *)
| MBarFinal              (* 101: bar(total_jobs - bar.current) *)
| MStop (i : nat)        (* 79-80: put(None), i iterations done *)
| MJoin (i : nat)        (* 81-82: self.workers[i].join() *)
| MReturned.

Inductive msg := MsgNoJobs | MsgError (j : J).

(** The whole system.  Queue items are [option J]: Python's [None] is both
    the sentinel and a possible job value.  [sent], [counted] and [lost]
    are history variables: sentinels put by [stop_workers], jobs whose
    increment was stored, jobs held by a worker killed at [put]. *)
Record state := mk_state {
  queue : list (option J);
  counter : Z;
  lock : option nat;
  workers : list worker;
  mgr : mpc;
  total_jobs : Z;
  bar : Z;
  stdout : list msg;
  sent : nat;
  counted : list J;
  lost : list J
}.

(** What the subclass and the caller supply: the items [create_jobs] puts
    on the queue (it adds 1 to [total_jobs] per item, as
    [WeatherDataManager.create_jobs] does) and [self.num_workers]. *)
Record config := mk_config {
  jobs : list (option J);
  num_workers : Z
}.

(** [BaseManager.__init__]. *)
Definition init : state :=
  mk_state [] 0 None [] MCreate 0 0 [] 0%nat [] [].

(** [BaseManager.__init__] of src/smhi/multiprocessing.py (line 50): the
    default of [num_workers] is [int(os.getenv("CORES"))], here [cores];
    [create] is what the subclass's [create_jobs] will enqueue. *)
Definition manager_init (cores : Z) (create : list (option J))
    (num_workers : option Z) : config :=
  let num_workers := default cores num_workers in
  mk_config create num_workers.

Definition set_num_workers (v : Z) (self : config) : config :=
  mk_config (jobs self) v.

(** [BaseManager.__init__] of src/smhi/smhi/util/multiprocessing.py
    (lines 47-56): the default of [num_workers] is [-1]; line 48 assigns
    [os.cpu_count()] in its place, line 52 assigns the argument again. *)
Definition util_manager_init (cpu_count : Z) (create : list (option J))
    (num_workers : option Z) : config :=
  let num_workers := default (-1) num_workers in
  let self :=
    mk_config create (if num_workers =? -1 then cpu_count else num_workers) in
  let self := set_num_workers num_workers self in
  self.

(** [BaseWorker.__init__]. *)
Definition new_worker : worker := mk_worker WStart NoEngine [] 0%nat 0%nat.

(** ** Steps of a worker *)

Definition set_worker (i : nat) (w : worker) (s : state) : state :=
  mk_state (queue s) (counter s) (lock s) (<[i:=w]> (workers s)) (mgr s)
    (total_jobs s) (bar s) (stdout s) (sent s) (counted s) (lost s).

Definition set_queue (q : list (option J)) (s : state) : state :=
  mk_state q (counter s) (lock s) (workers s) (mgr s)
    (total_jobs s) (bar s) (stdout s) (sent s) (counted s) (lost s).

Definition set_lock (l : option nat) (s : state) : state :=
  mk_state (queue s) (counter s) l (workers s) (mgr s)
    (total_jobs s) (bar s) (stdout s) (sent s) (counted s) (lost s).

Definition set_pc (p : wpc) (w : worker) : worker :=
  mk_worker p (engine w) (calls w) (incs w) (sentinels w).

(** One step of worker [i] when the call at its program point has
    outcome [o].  [None] means that the step cannot be taken: there is no
    worker [i], it has ended, it is blocked ([get()] on an empty queue,
    [get_lock()] while another process holds the lock), or the call at
    this point does not have that outcome. *)
Definition wstep (i : nat) (o : outcome) (s : state) : option state :=
  w ← workers s !! i;
  match pc w, o with
  | WStart, Ok =>                                             (* line 30 *)
      Some (set_worker i (mk_worker WGet Live (calls w) (incs w) (sentinels w)) s)
  | WGet, Ok =>                                           (* lines 32-33 *)
      match queue s with
      | [] => None
      | None :: q =>
          Some (set_worker i
                  (mk_worker WAck (engine w) (calls w) (incs w) (S (sentinels w)))
                  (set_queue q s))
      | Some j :: q => Some (set_worker i (set_pc (WProc j) w) (set_queue q s))
      end
  | WGet, Fault => Some (set_worker i (set_pc WDead w) s)
  | WAck, Ok => Some (set_worker i (set_pc WDispose w) s)     (* line 34 *)
  | WAck, Fault => Some (set_worker i (set_pc WDead w) s)
  | WDispose, Ok =>                                       (* lines 35-36 *)
      Some (set_worker i (mk_worker WDone Disposed (calls w) (incs w) (sentinels w)) s)
  | WProc j, Ok =>                                  (* line 38, returns *)
      Some (set_worker i
              (mk_worker (WLock j) (engine w) (calls w ++ [j]) (incs w) (sentinels w)) s)
  | WProc j, Raise =>                    (* line 38 raises; lines 41-42 *)
      Some (mk_state (queue s) (counter s) (lock s)
              (<[i:=mk_worker (WReput j) (engine w) (calls w ++ [j]) (incs w)
                      (sentinels w)]> (workers s))
              (mgr s) (total_jobs s) (bar s) (stdout s ++ [MsgError j])
              (sent s) (counted s) (lost s))
  | WLock j, Ok =>                                            (* line 39 *)
      match lock s with
      | None => Some (set_worker i (set_pc (WRead j) w) (set_lock (Some i) s))
      | Some _ => None
      end
  | WRead j, Ok =>                                  (* line 40, the load *)
      Some (set_worker i (set_pc (WWrite j (counter s)) w) s)
  | WWrite j v, Ok =>                              (* line 40, the store *)
      Some (mk_state (queue s) (wrap32 (v + 1)) (lock s)
              (<[i:=mk_worker WUnlock (engine w) (calls w) (S (incs w))
                      (sentinels w)]> (workers s))
              (mgr s) (total_jobs s) (bar s) (stdout s)
              (sent s) (counted s ++ [j]) (lost s))
  | WUnlock, Ok =>                          (* end of the with block *)
      Some (set_worker i (set_pc WGet w) (set_lock None s))
  | WReput j, Ok =>                                           (* line 43 *)
      Some (set_worker i (set_pc WGet w) (set_queue (queue s ++ [Some j]) s))
  | WReput j, Fault =>
      Some (mk_state (queue s) (counter s) (lock s)
              (<[i:=set_pc WDead w]> (workers s))
              (mgr s) (total_jobs s) (bar s) (stdout s)
              (sent s) (counted s) (lost s ++ [j]))
  | _, _ => None
  end.

(** ** Steps of the manager *)

(** A process has ended: [run] returned or an exception left it. *)
Definition terminated (w : worker) : bool :=
  match pc w with WDone | WDead => true | _ => false end.

Definition set_mgr (m : mpc) (s : state) : state :=
  mk_state (queue s) (counter s) (lock s) (workers s) m
    (total_jobs s) (bar s) (stdout s) (sent s) (counted s) (lost s).

Definition set_bar (b : Z) (s : state) : state :=
  mk_state (queue s) (counter s) (lock s) (workers s) (mgr s)
    (total_jobs s) b (stdout s) (sent s) (counted s) (lost s).

(** One step of the manager.  [range(self.num_workers)] has
    [Z.to_nat num_workers] elements: none when [num_workers <= 0].  Reading
    [progress_counter.value] takes the lock of the value for the time of
    the read, so it waits while a worker holds it; [join()] waits for the
    process to end. *)
Definition mstep (c : config) (s : state) : option state :=
  match mgr s with
  | MCreate =>                                            (* lines 88-92 *)
      let total := total_jobs s + Z.of_nat (length (jobs c)) in
      if total =? 0 then
        Some (mk_state (queue s ++ jobs c) (counter s) (lock s) (workers s)
                MReturned total (bar s) (stdout s ++ [MsgNoJobs])
                (sent s) (counted s) (lost s))
      else
        Some (mk_state (queue s ++ jobs c) (counter s) (lock s) (workers s)
                (MStart 0) total (bar s) (stdout s)
                (sent s) (counted s) (lost s))
  | MStart i =>                                           (* lines 70-73 *)
      if (i <? Z.to_nat (num_workers c))%nat then
        Some (mk_state (queue s) (counter s) (lock s) (workers s ++ [new_worker])
                (MStart (S i)) (total_jobs s) (bar s) (stdout s)
                (sent s) (counted s) (lost s))
      else Some (set_mgr MPoll s)
  | MPoll =>                                                  (* line 99 *)
      match lock s with
      | Some _ => None
      | None =>
          if counter s <? total_jobs s then Some (set_mgr MBar s)
          else Some (set_mgr MBarFinal s)
      end
  | MBar =>                                                  (* line 100 *)
      match lock s with
      | Some _ => None
      | None => Some (set_mgr MPoll (set_bar (bar s + (counter s - bar s)) s))
      end
  | MBarFinal =>                                             (* line 101 *)
      Some (set_mgr (MStop 0) (set_bar (bar s + (total_jobs s - bar s)) s))
  | MStop i =>                                            (* lines 79-80 *)
      if (i <? Z.to_nat (num_workers c))%nat then
        Some (mk_state (queue s ++ [None]) (counter s) (lock s) (workers s)
                (MStop (S i)) (total_jobs s) (bar s) (stdout s)
                (S (sent s)) (counted s) (lost s))
      else Some (set_mgr (MJoin 0) s)
  | MJoin i =>                                            (* lines 81-82 *)
      match workers s !! i with
      | Some w => if terminated w then Some (set_mgr (MJoin (S i)) s) else None
      | None => Some (set_mgr MReturned s)
      end
  | MReturned => None
  end.

(** ** Runs *)

Definition step (c : config) (l : label) (s : state) : option state :=
  match l with
  | Mgr => mstep c s
  | Wk i o => wstep i o s
  end.

Fixpoint exec (c : config) (tr : list label) (s : state) : option state :=
  match tr with
  | [] => Some s
  | l :: tr' => s' ← step c l s; exec c tr' s'
  end.

(** [s] is reached from a fresh manager by the schedule [tr]. *)
Definition reach (c : config) (tr : list label) (s : state) : Prop :=
  exec c tr init = Some s.

(** ** Derived views of a state *)

(** Between [get_lock()] being entered and left. *)
Definition holds_lock (p : wpc) : bool :=
  match p with WRead _ | WWrite _ _ | WUnlock => true | _ => false end.

(** The job a worker has pulled and neither counted nor put back. *)
Definition held (w : worker) : list J :=
  match pc w with
  | WProc j | WLock j | WRead j | WWrite j _ | WReput j => [j]
  | _ => []
  end.

Definition inflight (ws : list worker) : list J := ws ≫= held.

(** The items of a queue that are not [None]. *)
Definition somes (q : list (option J)) : list J := omap id q.

Definition past_poll (m : mpc) : bool :=
  match m with MBarFinal | MStop _ | MJoin _ | MReturned => true | _ => false end.

(** Past the sentinel test of line 33, or dead. *)
Definition drained (p : wpc) : bool :=
  match p with WAck | WDispose | WDone | WDead => true | _ => false end.

(** No handler raised / no queue operation failed in a schedule. *)
Definition no_raise (l : label) : bool :=
  match l with Wk _ Raise => false | _ => true end.
Definition no_fault (l : label) : bool :=
  match l with Wk _ Fault => false | _ => true end.

(** A schedule in which no handler raises and no queue operation fails. *)
Definition quiet (tr : list label) : Prop :=
  Forall (λ l, no_raise l = true ∧ no_fault l = true) tr.

(** No job was lost and no worker died. *)
Definition sound (s : state) : Prop :=
  lost s = [] ∧ Forall (λ w, pc w ≠ WDead) (workers s).

(** ** The invariant of reachable states *)

(** What holds of worker number [i], given the lock and the counter. *)
Definition worker_ok (lk : option nat) (cnt : Z) (i : nat) (w : worker) : Prop :=
  match pc w with
  | WStart => engine w = NoEngine
  | WDone => engine w = Disposed
  | _ => engine w = Live
  end ∧
  match pc w with
  | WAck | WDispose | WDone => sentinels w = 1%nat
  | WDead => (sentinels w ≤ 1)%nat
  | _ => sentinels w = 0%nat
  end ∧
  (holds_lock (pc w) = true ↔ lk = Some i) ∧
  (∀ j v, pc w = WWrite j v → v = cnt).

(** Before [create_jobs] nothing has happened. *)
Definition pristine (s : state) : Prop :=
  queue s = [] ∧ workers s = [] ∧ counted s = [] ∧ lost s = []
  ∧ total_jobs s = 0 ∧ stdout s = [].

(** After it, every job that is not [None] is in exactly one place:
    queued, held by a worker, counted, or lost with a killed worker. *)
Definition conserved (c : config) (s : state) : Prop :=
  total_jobs s = Z.of_nat (length (jobs c)) ∧
  somes (queue s) ++ inflight (workers s) ++ counted s ++ lost s
    ≡ₚ somes (jobs c).

(** [len(self.workers)] at each program point of the manager. *)
Definition nworkers_ok (c : config) (m : mpc) (n : nat) : Prop :=
  match m with
  | MCreate => n = 0%nat
  | MStart i => n = i ∧ (i ≤ Z.to_nat (num_workers c))%nat
  | MReturned => n = Z.to_nat (num_workers c) ∨ (jobs c = [] ∧ n = 0%nat)
  | _ => n = Z.to_nat (num_workers c)
  end.

(** The number of sentinels put so far. *)
Definition sent_ok (c : config) (m : mpc) (k : nat) : Prop :=
  match m with
  | MStop i => k = i ∧ (i ≤ Z.to_nat (num_workers c))%nat
  | MJoin _ => k = Z.to_nat (num_workers c)
  | MReturned => k = Z.to_nat (num_workers c) ∨ (jobs c = [] ∧ k = 0%nat)
  | _ => k = 0%nat
  end.

(** The workers whose [join()] has returned have ended. *)
Definition joined_ok (m : mpc) (ws : list worker) : Prop :=
  match m with
  | MJoin i => ∀ k w, (k < i)%nat → ws !! k = Some w → terminated w = true
  | MReturned => ∀ k w, ws !! k = Some w → terminated w = true
  | _ => True
  end.

Record inv (c : config) (s : state) : Prop := mk_inv {
  inv_workers : ∀ i w, workers s !! i = Some w →
                worker_ok (lock s) (counter s) i w;
  inv_lock : ∀ i, lock s = Some i → (i < length (workers s))%nat;
  inv_counter : counter s = wrap32 (Z.of_nat (length (counted s)));
  inv_incs : length (counted s) = sum_list_with incs (workers s);
  inv_fresh : mgr s = MCreate → pristine s;
  inv_conserved : mgr s ≠ MCreate → conserved c s;
  inv_nworkers : nworkers_ok c (mgr s) (length (workers s));
  inv_sent : sent_ok c (mgr s) (sent s);
  inv_past : past_poll (mgr s) = true →
             length (counted s) = length (jobs c)
             ∧ Z.of_nat (length (jobs c)) ≤ INT_MAX;
  inv_joined : joined_ok (mgr s) (workers s)
}.

(** The [None] items of a queue, and those the workers have pulled. *)
Definition nones (q : list (option J)) : nat :=
  sum_list_with (λ x, if x is Some _ then 0%nat else 1%nat) q.

Definition pulled (ws : list worker) : nat := sum_list_with sentinels ws.

(** Every [None] put on the queue is still there or was pulled. *)
Definition accounted (c : config) (s : state) : Prop :=
  (nones (queue s) + pulled (workers s)
   = sent s + (if mgr s is MCreate then 0 else nones (jobs c)))%nat.

(** Waiting at [get()] or returned: outside any loop iteration. *)
Definition settled (p : wpc) : bool :=
  match p with WGet | WDone => true | _ => false end.

(** The number of successful steps that take a worker to a settled
    program point. *)
Definition dist (p : wpc) : nat :=
  match p with
  | WGet | WDone | WDead => 0
  | WStart | WDispose | WUnlock | WReput _ => 1
  | WAck | WWrite _ _ => 2
  | WRead _ => 3
  | WLock _ => 4
  | WProc _ => 5
  end.

(** What a run without failed queue operations maintains. *)
Definition good (c : config) (s : state) : Prop :=
  inv c s ∧ sound s ∧ accounted c s.

(** The state in which [run] returns when there are no jobs (line 92). *)
Definition returned_idle : state :=
  mk_state [] 0 None [] MReturned 0 0 [MsgNoJobs] 0%nat [] [].

(** ** A schedule in which every call succeeds *)

(** A worker with an engine, waiting at [get()]. *)
Definition idle (cs : list J) (n : nat) : worker := mk_worker WGet Live cs n 0.

(** A worker after the sentinel branch (lines 34-36). *)
Definition finish (w : worker) : worker :=
  mk_worker WDone Disposed (calls w) (incs w) (S (sentinels w)).

(** A worker at [get()] still has its sentinel to pull. *)
Definition waiting (w : worker) : nat :=
  match pc w with WGet => 1 | _ => 0 end.

Definition retire (w : worker) : worker :=
  match pc w with WGet => finish w | _ => w end.

(** One job, start to end: [get], [process_job], lock, load, store, unlock. *)
Definition job_cycle (i : nat) : list label := replicate 6 (Wk i Ok).

(** One failed attempt: [get], [process_job] raises, [put]. *)
Definition retry_cycle (i : nat) : list label := [Wk i Ok; Wk i Raise; Wk i Ok].

(** The sentinel branch: [get], [task_done], [dispose]. *)
Definition shutdown (i : nat) : list label := replicate 3 (Wk i Ok).

(** The workers from number [i] on that wait at [get()] pull a sentinel
    each, in the order of their numbers. *)
Fixpoint drain_schedule (i : nat) (todo : list worker) : list label :=
  match todo with
  | [] => []
  | w :: todo' =>
      match pc w with WGet => shutdown i | _ => [] end
      ++ drain_schedule (S i) todo'
  end.

(** From [s] the run can be brought to its return without any call
    raising or failing. *)
Definition completes (c : config) (s : state) : Prop :=
  ∃ tr' s', quiet tr' ∧ exec c tr' s = Some s' ∧ mgr s' = MReturned.

(** [n] workers are started; the first [r] calls of [process_job] raise,
    then worker 0 handles the [k] jobs one after the other; then every
    worker pulls one sentinel and is joined. *)
Definition busy_schedule (r k n : nat) : list label :=
  [Mgr] ++ (replicate n Mgr ++ [Mgr])
  ++ ((λ i, Wk i Ok) <$> seq 0 n)
  ++ mjoin (replicate r (retry_cycle 0))
  ++ mjoin (replicate k (job_cycle 0))
  ++ [Mgr; Mgr]
  ++ (replicate n Mgr ++ [Mgr])
  ++ (seq 0 n ≫= shutdown)
  ++ (replicate n Mgr ++ [Mgr]).

Definition quiet_schedule (k n : nat) : list label :=
  match k with
  | O => [Mgr]
  | S _ => busy_schedule 0 k n
  end.

(** The number of raising handler calls in a schedule. *)
Definition raises (tr : list label) : nat :=
  sum_list_with (λ l, if no_raise l then 0%nat else 1%nat) tr.

End WithJob.

Arguments wpc : clear implicits.
Arguments worker : clear implicits.
Arguments msg : clear implicits.
Arguments state : clear implicits.
Arguments config : clear implicits.

(** ** The progress bar, handlers and the weather-data seeder *)

#[global] Instance outcome_eq_dec : EqDecision outcome.
Proof. solve_decision. Defined.

Section Handlers.

Context {J : Type}.

(** The position of the progress bar: 0 before [alive_bar] is entered, a
    past value of the counter inside the polling loop, [total_jobs] once
    line 101 has run. *)
Definition bar_ok (s : state J) : Prop :=
  match mgr s with
  | MCreate => bar s = 0
  | MStart _ | MPoll | MBar | MBarFinal =>
      ∃ k, (k ≤ length (counted s))%nat ∧ bar s = wrap32 (Z.of_nat k)
  | MStop _ | MJoin _ | MReturned => bar s = total_jobs s
  end.

(** [BaseWorker.process_job] (lines 20-24) raises [NotImplementedError],
    an [Exception], on every job. *)
Definition process_job (job : J) : outcome := Raise.

(** A handler whose outcome on a job is the same at every attempt is a
    function [h] of the job.  [obeys h l s]: the step [l], when it is
    the call of line 38, has the outcome [h] gives. *)
Definition obeys (h : J → outcome) (l : label) (s : state J) : bool :=
  match l with
  | Mgr => true
  | Wk i o =>
      match workers s !! i with
      | Some w =>
          match pc w with
          | WProc j => bool_decide (o = h j)
          | _ => true
          end
      | None => true
      end
  end.

(** The runs of a pool whose workers have the handler [h]. *)
Fixpoint exec_with (h : J → outcome) (c : config J) (tr : list label)
    (s : state J) : option (state J) :=
  match tr with
  | [] => Some s
  | l :: tr' =>
      if obeys h l s then s' ← step c l s; exec_with h c tr' s' else None
  end.

(** The job of a worker whose handler has returned and whose increment
    is under way. *)
Definition handled (w : worker J) : list J :=
  match pc w with
  | WLock j | WRead j | WWrite j _ => [j]
  | _ => []
  end.

(** Only jobs on which the handler returns get past line 38. *)
Definition passed (h : J → outcome) (s : state J) : Prop :=
  Forall (λ j, h j = Ok) (counted s)
  ∧ Forall (λ w, Forall (λ j, h j = Ok) (handled w)) (workers s).

(** [WeatherDataManager.create_jobs] (src/smhi/seed/station_data.py,
    lines 89-93): one job per station id, each adding 1 to [total_jobs].
    The ids are primary keys, so none of them is [None]. *)
Definition create_jobs (ids : list J) : list (option J) := Some <$> ids.

(** [seed_weather_data] (lines 97-100): a [WeatherDataManager] with
    [num_workers=20]. *)
Definition seed_weather_data (cores : Z) (ids : list J) : config J :=
  manager_init cores (create_jobs ids) (Some 20).

End Handlers.

End Pool.

(** * The shared-memory channel *)

Module Shm.

(** Named segments of the operating system, and the names of the segments
    this process has mapped ([SharedMemory] objects not yet closed). *)
Record world := mk_world {
  segs : gmap string (list Byte.byte);
  maps : list string
}.

Inductive error :=
| PicklingError        (* pickle.dumps cannot serialise the value *)
| UnpicklingError      (* pickle.loads rejects the bytes *)
| ValueError           (* SharedMemory(create=True, size=0); a slice
                          assignment of another length *)
| OSError              (* SharedMemory(create=True, name=n), n refused *)
| FileExistsError      (* SharedMemory(create=True, name=n), n in use *)
| FileNotFoundError.   (* SharedMemory(name=n), no segment n *)

(** Computations that read and write the world and may raise. *)
Definition M (A : Type) : Type := world → (error + A) * world.

Definition ret {A} (a : A) : M A := λ w, (inr a, w).
Definition raise {A} (e : error) : M A := λ w, (inl e, w).
Definition bind {A B} (m : M A) (k : A → M B) : M B :=
  λ w, match m w with
       | (inl e, w') => (inl e, w')
       | (inr a, w') => k a w'
       end.

(** [try: body finally: fin]: [fin] runs whether [body] returns or raises;
    the outcome of [body] stands unless [fin] itself raises. *)
Definition try_finally {A} (body : M A) (fin : M unit) : M A :=
  λ w, match body w with
       | (r, w') =>
           match fin w' with
           | (inl e, w'') => (inl e, w'')
           | (inr _, w'') => (r, w'')
           end
       end.

Declare Scope shm_scope.
Delimit Scope shm_scope with shm.
Notation "'let*' x := m 'in' k" := (bind m (λ x, k))
  (at level 200, x name, m at level 100, k at level 200) : shm_scope.
Local Open Scope shm_scope.

(** The name the library picks when [name=None]: some name not in use. *)
Definition make_filename (w : world) : string := fresh (dom (segs w)).

Section Os.

(** The names the operating system refuses to open a segment under
    ([shm_open] fails with [EINVAL] or [ENAMETOOLONG]): the empty name, a
    name with a slash inside, a name that is too long. *)
Variable os_refuses : string → bool.

(** [SharedMemory(create=True, size=size, name=name)]: the size is
    checked first, then the segment is opened under the name, which the
    operating system may refuse or find in use; the new block has [size]
    zero bytes (on Linux a block has exactly the requested size). *)
Definition shm_create (name : option string) (size : nat) : M string :=
  λ w,
    if decide (size = 0%nat) then (inl ValueError, w)
    else
      let n := default (make_filename w) name in
      if os_refuses n then (inl OSError, w)
      else
        match segs w !! n with
        | Some _ => (inl FileExistsError, w)
        | None =>
            (inr n, mk_world (<[n:=replicate size Byte.x00]> (segs w))
                      (n :: maps w))
        end.

End Os.

(** [SharedMemory(name=name)]. *)
Definition shm_attach (name : string) : M string :=
  λ w,
    match segs w !! name with
    | Some _ => (inr name, mk_world (segs w) (name :: maps w))
    | None => (inl FileNotFoundError, w)
    end.

(** [shm.buf[:n] = bs] with [n = len(bs)].  The slice is the first [n]
    bytes of the block, or all of it when the block is shorter; a
    memoryview cannot change its size, so the assignment raises
    [ValueError] unless the slice is as long as [bs]. *)
Definition buf_write (shm : string) (bs : list Byte.byte) : M unit :=
  λ w,
    let old := default [] (segs w !! shm) in
    if decide (length (take (length bs) old) = length bs) then
      (inr (),
       mk_world (alter (λ old, bs ++ drop (length bs) old) shm (segs w))
         (maps w))
    else (inl ValueError, w).

(** [bytes(shm.buf[:])]. *)
Definition buf_read (shm : string) : M (list Byte.byte) :=
  λ w, (inr (default [] (segs w !! shm)), w).

Fixpoint remove_first (n : string) (l : list string) : list string :=
  match l with
  | [] => []
  | x :: l' => if decide (x = n) then l' else x :: remove_first n l'
  end.

(** [shm.close()]. *)
Definition shm_close (shm : string) : M unit :=
  λ w, (inr (), mk_world (segs w) (remove_first shm (maps w))).

Section Pickle.

(** [pickle.dumps] and [pickle.loads]; [None] stands for the exception
    each raises. *)
Context {D : Type}.
Variable os_refuses : string → bool.
Variable dumps : D → option (list Byte.byte).
Variable loads : list Byte.byte → option D.

Definition pickle_dumps (d : D) : M (list Byte.byte) :=
  match dumps d with Some bs => ret bs | None => raise PicklingError end.

Definition pickle_loads (bs : list Byte.byte) : M D :=
  match loads bs with Some d => ret d | None => raise UnpicklingError end.

(** Lines 107-121.  The [SharedMemory] object is represented by the name
    of its segment, which is what its [name] property gives. *)
Definition serialize_to_shared_memory (data : D) (shm_name : option string)
    : M (string * string) :=
  let* data_bytes := pickle_dumps data in
  let* shm := shm_create os_refuses shm_name (length data_bytes) in
  let* _ := buf_write shm data_bytes in
  ret (shm, shm).

(** Lines 124-140. *)
Definition deserialize_from_shared_memory (shm_name : string) : M D :=
  let* shm := shm_attach shm_name in
  let* data :=
    try_finally
      (let* data_bytes := buf_read shm in
       let* data := pickle_loads data_bytes in
       ret data)
      (shm_close shm) in
  ret data.

End Pickle.

(** A small serialiser for concrete runs: one tag byte, then the payload. *)
Definition tag_dumps (d : list Byte.byte) : option (list Byte.byte) :=
  Some (Byte.x80 :: d).
Definition tag_loads (bs : list Byte.byte) : option (list Byte.byte) :=
  match bs with
  | Byte.x80 :: d => Some d
  | _ => None
  end.

(** A refusal rule for concrete runs: the empty name, a slash in the
    name, more than 255 characters. *)
Definition posix_refuses (name : string) : bool :=
  bool_decide (name = ""%string)
  || (if String.index 0 "/" name is Some _ then true else false)
  || (255 <? String.length name)%nat.

End Shm.

(** * Rounding a timestamp to the hour *)

Module Time.

(** [date.max.toordinal()]: the ordinal of 9999-12-31. *)
Definition MAXORDINAL : Z := 3652059.

Section WithTz.

Context {TZ : Type}.

(** A [datetime].  The date is held as its proleptic Gregorian ordinal
    ([toordinal()], 1 for 0001-01-01): [replace] below leaves the date
    alone and [+] goes through the ordinal. *)
Record datetime := mk_datetime {
  ordinal : Z;
  hour : Z;
  minute : Z;
  second : Z;
  microsecond : Z;
  tzinfo : TZ;
  fold : bool
}.

(** What the constructor of [datetime] accepts. *)
Definition valid (t : datetime) : Prop :=
  1 ≤ ordinal t ≤ MAXORDINAL ∧ 0 ≤ hour t < 24 ∧ 0 ≤ minute t < 60
  ∧ 0 ≤ second t < 60 ∧ 0 ≤ microsecond t < 1000000.

(** Microseconds since the midnight before 0001-01-01, on the clock of
    [tzinfo]. *)
Definition stamp (t : datetime) : Z :=
  (((ordinal t * 24 + hour t) * 60 + minute t) * 60 + second t) * 1000000
  + microsecond t.

(** [t.replace(hour=h, minute=m, second=s, microsecond=us)]: the date,
    [tzinfo] and [fold] stay. *)
Definition replace (t : datetime) (h m s us : Z) : datetime :=
  mk_datetime (ordinal t) h m s us (tzinfo t) (fold t).

End WithTz.

Arguments datetime : clear implicits.

(** A [timedelta], normalised: [0 <= seconds < 86400] and
    [0 <= microseconds < 10^6]. *)
Record timedelta := mk_timedelta {
  days : Z;
  seconds : Z;
  microseconds : Z
}.

(** [timedelta(days, seconds, microseconds, hours=hours, minutes=minutes)]
    on integers: the carries of [divmod]. *)
Definition new_timedelta (days hours minutes seconds microseconds : Z)
    : timedelta :=
  let s := hours * 3600 + minutes * 60 + seconds + microseconds / 1000000 in
  mk_timedelta (days + s / 86400) (s mod 86400) (microseconds mod 1000000).

(** [timedelta.__add__]. *)
Definition timedelta_add (a b : timedelta) : timedelta :=
  new_timedelta (days a + days b) 0 0 (seconds a + seconds b)
    (microseconds a + microseconds b).

(** [datetime.__add__]: [None] is the [OverflowError] raised when the
    day leaves the range of [date]; the result has [fold=0]. *)
Definition datetime_add {TZ} (t : datetime TZ) (other : timedelta)
    : option (datetime TZ) :=
  let delta :=
    timedelta_add
      (new_timedelta (ordinal t) (hour t) (minute t) (second t)
         (microsecond t))
      other in
  let hour := seconds delta / 3600 in
  let rem := seconds delta mod 3600 in
  let minute := rem / 60 in
  let second := rem mod 60 in
  if (0 <? days delta) && (days delta <=? MAXORDINAL) then
    Some (mk_datetime (days delta) hour minute second (microseconds delta)
            (tzinfo t) false)
  else None.

(** [get_rounded_hour] (src/smhi/smhi/util/time.py, lines 3-5). *)
Definition get_rounded_hour {TZ} (t : datetime TZ) : option (datetime TZ) :=
  datetime_add (replace t (hour t) 0 0 0)
    (new_timedelta 0 (minute t / 30) 0 0 0).

End Time.

(** * Weather at a point *)

Module Weather.

Import Time.

Section WithSession.

Context {TZ X V : Type}.

(** The two queries of src/smhi/weather.py as the session answers them:
    [get_nearest_value_to_point(session, parameter, timestamp, x, y)]
    with its default radius, and
    [get_kriged_value_at_point(session, parameter, date, method, x, y)].
    [None] is Python's [None]. *)
Variable get_nearest_value_to_point :
  string → datetime TZ → X → X → option V.
Variable get_kriged_value_at_point :
  string → datetime TZ → string → X → X → option V.

(** [get_weather_at_point] (lines 109-132); [get_rounded_hour] is the
    function of [Time].  The outer [None] is the [OverflowError] of the
    rounding; a parameter that matches no test falls off the end of the
    function, which returns Python's [None]. *)
Definition get_weather_at_point (parameter : string)
    (timestamp : datetime TZ) (x y : X) : option (option V) :=
  timestamp ← get_rounded_hour timestamp;
  if decide (parameter = "nearest_air_temperature") then
    Some (get_nearest_value_to_point "air_temperature" timestamp x y)
  else if decide (parameter = "air_temperature") then
    Some (get_kriged_value_at_point parameter timestamp "regression" x y)
  else if decide (parameter = "precipitation") then
    Some (get_nearest_value_to_point parameter timestamp x y)
  else if decide (parameter = "wind") then
    Some (get_kriged_value_at_point parameter timestamp "regression" x y)
  else if decide (parameter = "snow_depth") then
    let timestamp := replace timestamp 6 0 0 0 in
    Some (get_kriged_value_at_point parameter timestamp "regression" x y)
  else Some None.

End WithSession.

End Weather.

(** * Seeding the weather stations *)

Module Station.

(** Exceptions, as far as the code tells them apart: [ValueError], which
    [fetch_weather_stations] catches, and everything else. *)
Inductive exn :=
| ValueError (message : string)
| KeyError (key : string)
| OtherError (name : string).

(** A line of the standard output. *)
Inductive line :=
| LineError (station_key : string) (e : string)   (* line 118 *)
| LineProcessed (n : nat) (parameter : string)    (* line 120 *)
| LineSeeded (n : nat).                           (* line 133 *)

(** The standard output and the [weather_station] table. *)
Record world {Row : Type} := mk_world {
  stdout : list line;
  table : list Row
}.
Arguments world : clear implicits.
Arguments mk_world {Row}.
Arguments stdout {Row}.
Arguments table {Row}.

(** An entry of a ["link"] array and of the ["period"] array of the API. *)
Record link := mk_link {
  link_type : string;
  href : string
}.

Record period := mk_period {
  period_key : string;
  period_link : list link
}.

(** [PARAMETERS] (lines 43-48), in the order of its keys. *)
Definition PARAMETERS : list (string * Z) :=
  [("air_temperature", 1); ("wind", 4); ("precipitation", 7);
   ("snow_depth", 8)]%string.

(** The loop of lines 56-59 and of lines 68-71: the [href] of the first
    link of type application/json. *)
Fixpoint first_json (links : list link) : option string :=
  match links with
  | [] => None
  | l :: links' =>
      if decide (link_type l = "application/json") then Some (href l)
      else first_json links'
  end.

(** The loop of lines 65-71, from the value [period_url] has before it:
    the inner [break] leaves the loop over the links only, so every
    corrected-archive period with a JSON link assigns again. *)
Fixpoint scan_periods (period_url : option string) (periods : list period)
    : option string :=
  match periods with
  | [] => period_url
  | p :: periods' =>
      if decide (period_key p = "corrected-archive") then
        match first_json (period_link p) with
        | Some h => scan_periods (Some h) periods'
        | None => scan_periods period_url periods'
        end
      else scan_periods period_url periods'
  end.

(** A period that leaves [period_url] as it is. *)
Definition silent (p : period) : Prop :=
  period_key p = "corrected-archive"%string →
  first_json (period_link p) = None.

Section WithApi.

(** A station of the API's JSON and a [WeatherStation] row. *)
Context {Stn Row : Type}.

(** [station["key"]] and [station["link"]]. *)
Variable key : Stn → string.
Variable links : Stn → list link.

(** What the network answers: [SESSION.get(url).json()['period']], where
    [url] is [None] when no link matched, the
    [json()['data'][0]["link"][0]["href"]] of a period, and the
    [json()["station"]] of a parameter number. *)
Variable periods_at : option string → exn + list period.
Variable data_href_at : string → exn + string.
Variable stations_at : Z → exn + list Stn.

(** The arguments of [WeatherStation(...)] that are evaluated before
    [data_url] (lines 80-95): the coordinates, the dates, the land use.
    They give the row once the data URL is known, or raise. *)
Variable prepare : Stn → string → exn + (string → Row).

(** [get_station_data_url] (lines 53-75). *)
Definition get_station_data_url (station : Stn) : exn + string :=
  let station_url := first_json (links station) in
  match periods_at station_url with
  | inl e => inl e
  | inr station_periods =>
      match scan_periods None station_periods with
      | Some period_url =>
          if decide (period_url = ""%string) then
            inl (ValueError (key station))
          else data_href_at period_url
      | None => inl (ValueError (key station))
      end
  end.

(** [build_weather_station_data] (lines 78-97). *)
Definition build_weather_station_data (station : Stn) (parameter : string)
    : exn + Row :=
  match prepare station parameter with
  | inl e => inl e
  | inr row =>
      match get_station_data_url station with
      | inl e => inl e
      | inr data_url => inr (row data_url)
      end
  end.

(** Views of a list of stations: the rows of those that can be built,
    the reports of those whose building raises [ValueError], and whether
    building a station does one of the two. *)
Definition built (parameter : string) (stations : list Stn) : list Row :=
  omap (λ station,
          match build_weather_station_data station parameter with
          | inr row => Some row
          | inl _ => None
          end) stations.

Definition reports (parameter : string) (stations : list Stn) : list line :=
  omap (λ station,
          match build_weather_station_data station parameter with
          | inl (ValueError e) => Some (LineError (key station) e)
          | _ => None
          end) stations.

Definition skippable (parameter : string) (station : Stn) : Prop :=
  match build_weather_station_data station parameter with
  | inr _ | inl (ValueError _) => True
  | inl _ => False
  end.

(** The loop of lines 114-118. *)
Fixpoint fetch_loop (parameter : string) (todo : list Stn)
    (stations : list Row) (w : world Row) : (exn + list Row) * world Row :=
  match todo with
  | [] => (inr stations, w)
  | station :: todo' =>
      match build_weather_station_data station parameter with
      | inr row => fetch_loop parameter todo' (stations ++ [row]) w
      | inl (ValueError e) =>
          fetch_loop parameter todo' stations
            (mk_world (stdout w ++ [LineError (key station) e]) (table w))
      | inl e => (inl e, w)
      end
  end.

(** [fetch_weather_stations] (lines 109-121). *)
Definition fetch_weather_stations (parameter : string) (w : world Row)
    : (exn + list Row) * world Row :=
  match list_to_map (M := gmap string Z) PARAMETERS !! parameter with
  | None => (inl (KeyError parameter), w)
  | Some number =>
      match stations_at number with
      | inl e => (inl e, w)
      | inr response =>
          match fetch_loop parameter response [] w with
          | (inl e, w') => (inl e, w')
          | (inr stations, w') =>
              (inr stations,
               mk_world
                 (stdout w' ++ [LineProcessed (length stations) parameter])
                 (table w'))
          end
      end
  end.

(** The loop of lines 127-128. *)
Fixpoint seed_loop (parameters : list string) (station_rows : list Row)
    (w : world Row) : (exn + list Row) * world Row :=
  match parameters with
  | [] => (inr station_rows, w)
  | parameter :: parameters' =>
      match fetch_weather_stations parameter w with
      | (inl e, w') => (inl e, w')
      | (inr stations, w') =>
          seed_loop parameters' (station_rows ++ stations) w'
      end
  end.

(** [seed_weather_stations] (lines 124-133); [add_all] and [commit] put
    the rows into the table. *)
Definition seed_weather_stations (w : world Row)
    : (exn + unit) * world Row :=
  match seed_loop PARAMETERS.*1 [] w with
  | (inl e, w') => (inl e, w')
  | (inr station_rows, w') =>
      (inr (),
       mk_world (stdout w' ++ [LineSeeded (length station_rows)])
         (table w' ++ station_rows))
  end.

End WithApi.

End Station.

(** * The worker that seeds the weather data *)

Module WeatherData.

Import Pool.

(** The exceptions of [process_job]: the [ConnectionError] of line 51,
    and whatever decoding and parsing raise.  All are [Exception]s. *)
Inductive exn :=
| ConnectionError
| OtherError (name : string).

Section WithSources.

(** A [WeatherStation] of the table and a record of [WeatherData]. *)
Context {Stn Rec : Type}.

(** [db_session.get(WeatherStation, station_id)]; the status code of
    the response to [weather_station.data_url], or what the request
    raises; and lines 54-83: the records parsed from the response, [None]
    when all rows are NA. *)
Variable db_get : Z → option Stn.
Variable status_code : Stn → exn + Z.
Variable parse : Stn → exn + option (list Rec).

(** [fetch_weather_station_data] (lines 47-83). *)
Definition fetch_weather_station_data (weather_station : Stn)
    : exn + option (list Rec) :=
  match status_code weather_station with
  | inl e => inl e
  | inr code =>
      if decide (code ≠ 200) then inl ConnectionError
      else parse weather_station
  end.

(** [WeatherDataWorker.process_job] (lines 36-45) on the [weather_data]
    table: an empty list of records is as falsy as [None]. *)
Definition process_job (station_id : Z) (weather_data : list Rec)
    : (exn + unit) * list Rec :=
  match db_get station_id with
  | None => (inr (), weather_data)
  | Some station =>
      match fetch_weather_station_data station with
      | inl e => (inl e, weather_data)
      | inr (Some (r :: rs)) => (inr (), weather_data ++ r :: rs)
      | inr _ => (inr (), weather_data)
      end
  end.

(** What line 38 of [BaseWorker.run] sees of it. *)
Definition outcome_of (station_id : Z) : outcome :=
  match (process_job station_id []).1 with
  | inr _ => Ok
  | inl _ => Raise
  end.

End WithSources.

End WeatherData.

(** * Concrete runs *)

Module Scenario.

Import Pool.

(** Five jobs, two workers (spec.md, section 8). *)
Definition five : config Z :=
  manager_init 2 [Some 1; Some 2; Some 3; Some 4; Some 5] None.

Definition five_schedule : list label :=
  [Mgr; Mgr; Mgr; Mgr; Wk 0 Ok; Wk 1 Ok]
  ++ job_cycle 0 ++ job_cycle 1 ++ job_cycle 0 ++ job_cycle 0 ++ job_cycle 1
  ++ [Mgr; Mgr; Mgr; Mgr; Mgr]
  ++ shutdown 1 ++ shutdown 0 ++ [Mgr; Mgr; Mgr].

Definition five_final : state Z :=
  Eval vm_compute in default init (exec five five_schedule init).

(** One job, one worker, the handler raises twice and then succeeds. *)
Definition flaky : config Z := manager_init 1 [Some 7] None.

Definition flaky_schedule : list label :=
  [Mgr; Mgr; Mgr; Wk 0 Ok]
  ++ retry_cycle 0 ++ retry_cycle 0 ++ job_cycle 0
  ++ [Mgr; Mgr; Mgr; Mgr] ++ shutdown 0 ++ [Mgr; Mgr].

Definition flaky_final : state Z :=
  Eval vm_compute in default init (exec flaky flaky_schedule init).

(** The same job at its first attempt, inside [process_job]. *)
Definition flaky_first : state Z :=
  Eval vm_compute in
    default init (exec flaky [Mgr; Mgr; Mgr; Wk 0 Ok; Wk 0 Ok] init).

(** One job, one worker whose first [get()] fails. *)
Definition crash_schedule : list label := [Mgr; Mgr; Mgr; Wk 0 Ok; Wk 0 Fault].

Definition crashed : state Z :=
  Eval vm_compute in default init (exec flaky crash_schedule init).

(** [2^31] jobs, one worker. *)
Definition overflow : config Z :=
  mk_config (Some <$> replicate (S (Z.to_nat INT_MAX)) 0) 1.

(** No job. *)
Definition idle_run : config Z := manager_init 4 [] None.

(** [create_jobs] enqueues [None] before a real job; one worker at [get()]. *)
Definition with_none : config Z := manager_init 1 [None; Some 3] None.

Definition none_at_head : state Z :=
  Eval vm_compute in
    default init (exec with_none [Mgr; Mgr; Mgr; Wk 0 Ok] init).

(** A fresh process and a world without segments. *)
Definition empty_world : Shm.world := Shm.mk_world ∅ [].

Definition payload : list Byte.byte := [Byte.x2a; Byte.x00; Byte.xff].

(** Five jobs while the workers are being started: worker 0 holds job 1
    and its handler has just raised. *)
Definition midway_schedule : list label :=
  [Mgr; Mgr; Mgr; Wk 0 Ok; Wk 0 Ok; Wk 0 Raise].

Definition five_midway : state Z :=
  Eval vm_compute in default init (exec five midway_schedule init).

(** Five jobs, worker 0 between the load and the store of line 40. *)
Definition locked_schedule : list label :=
  [Mgr; Mgr; Mgr; Mgr; Wk 0 Ok; Wk 1 Ok] ++ replicate 4 (Wk 0 Ok).

Definition five_locked : state Z :=
  Eval vm_compute in default init (exec five locked_schedule init).

(** One job, two workers; the first [get()] of worker 0 fails and worker
    1 does the work. *)
Definition pair : config Z := manager_init 2 [Some 7] None.

Definition orphan_schedule : list label :=
  [Mgr; Mgr; Mgr; Mgr; Wk 0 Ok; Wk 1 Ok; Wk 0 Fault]
  ++ job_cycle 1 ++ [Mgr; Mgr; Mgr; Mgr; Mgr] ++ shutdown 1
  ++ [Mgr; Mgr; Mgr].

Definition orphan_final : state Z :=
  Eval vm_compute in default init (exec pair orphan_schedule init).

(** One job whose handler has raised; the worker is about to put it back. *)
Definition reput_schedule : list label :=
  [Mgr; Mgr; Mgr; Wk 0 Ok; Wk 0 Ok; Wk 0 Raise].

Definition flaky_reput : state Z :=
  Eval vm_compute in default init (exec flaky reput_schedule init).

Definition flaky_lost : state Z :=
  Eval vm_compute in
    default init (exec flaky [Wk 0 Fault; Mgr; Mgr] flaky_reput).

(** One job and a worker with the handler of [BaseWorker]: two attempts. *)
Definition stuck_schedule : list label :=
  [Mgr; Mgr; Mgr; Wk 0 Ok] ++ retry_cycle 0 ++ retry_cycle 0.

Definition flaky_stuck : state Z :=
  Eval vm_compute in
    default init (exec_with process_job flaky stuck_schedule init).

(** Two stations to seed, the first two workers started. *)
Definition two_stations : config Z := seed_weather_data 4 [11; 12].

Definition seeding : state Z :=
  Eval vm_compute in default init (exec two_stations [Mgr; Mgr; Mgr] init).




(** 2021-12-31 23:45:12.000005, and the midnight that follows. *)
Definition new_years_eve : Time.datetime unit :=
  Time.mk_datetime 738155 23 45 12 5 () true.

Definition new_year : Time.datetime unit :=
  Time.mk_datetime 738156 0 0 0 0 () false.

(** The same day at 10:29:59.999999 and at 10:30:00, and the hours they
    round to. *)
Definition before_half : Time.datetime unit :=
  Time.mk_datetime 738155 10 29 59 999999 () true.

Definition half_past : Time.datetime unit :=
  Time.mk_datetime 738155 10 30 0 0 () false.

Definition ten : Time.datetime unit :=
  Time.mk_datetime 738155 10 0 0 0 () false.

Definition eleven : Time.datetime unit :=
  Time.mk_datetime 738155 11 0 0 0 () false.

(** A session whose answer to a query is the day the query asks for. *)
Definition day_asked (parameter : string) (timestamp : Time.datetime unit)
    (x y : Z) : option Z :=
  Some (Time.ordinal timestamp).

Definition day_kriged (parameter : string) (date : Time.datetime unit)
    (method : string) (x y : Z) : option Z :=
  Some (Time.ordinal date).

(** A small API.  A station is its key, a row its key and data URL.
    Station 188790 has a corrected archive, the others have none; only
    parameter 1 has stations. *)
Definition api_links (station : string) : list Station.link :=
  [Station.mk_link "text/html" "index.html";
   Station.mk_link "application/json" station].

Definition archive_periods : list Station.period :=
  [Station.mk_period "corrected-archive"
     [Station.mk_link "application/xml" "a.xml";
      Station.mk_link "application/json" "a.json"];
   Station.mk_period "latest-day" [Station.mk_link "application/json" "d"];
   Station.mk_period "corrected-archive"
     [Station.mk_link "application/xml" "b.xml"]].

Definition api_periods (url : option string)
    : Station.exn + list Station.period :=
  match url with
  | Some u =>
      if decide (u = "188790"%string) then inr archive_periods
      else inr [Station.mk_period "latest-day"
                  [Station.mk_link "application/json" "d"]]
  | None => inl (Station.OtherError "MissingSchema")
  end.

Definition api_data (period_url : string) : Station.exn + string :=
  inr (period_url +:+ "/data.csv")%string.

Definition api_stations (number : Z) : Station.exn + list string :=
  if number =? 1 then inr ["188790"; "97280"]%string else inr [].

Definition api_prepare (station parameter : string)
    : Station.exn + (string → string * string) :=
  inr (λ data_url, (station, data_url)).

Definition no_stations : Station.world (string * string) :=
  Station.mk_world [] [].

Definition fetched : Station.world (string * string) :=
  Eval vm_compute in
    (Station.fetch_weather_stations id api_links api_periods api_data
       api_stations api_prepare "air_temperature" no_stations).2.

Definition seeded : Station.world (string * string) :=
  Eval vm_compute in
    (Station.seed_weather_stations id api_links api_periods api_data
       api_stations api_prepare no_stations).2.

(** Two stations in the table, the data URL of station 12 answers 503. *)
Definition station_of (station_id : Z) : option Z :=
  if bool_decide (station_id ∈ [11; 12]) then Some station_id else None.

Definition status_of (station : Z) : WeatherData.exn + Z :=
  inr (if station =? 12 then 503 else 200).

Definition records_of (station : Z) : WeatherData.exn + option (list Z) :=
  inr (Some [station]).

Definition outage_schedule : list label :=
  [Mgr; Mgr; Wk 0 Ok] ++ job_cycle 0 ++ retry_cycle 0 ++ retry_cycle 0.

Definition outage : state Z :=
  Eval vm_compute in
    default init
      (exec_with (WeatherData.outcome_of station_of status_of records_of)
         two_stations outage_schedule init).

End Scenario.

(** * Facts about the pool *)

Section PoolFacts.

Import Pool.
Context {J : Type}.
Implicit Types (s : state J) (w : worker J) (c : config J) (tr : list label).

(** ** The 32-bit counter *)

Lemma wrap32_small z : INT_MIN ≤ z ≤ INT_MAX → wrap32 z = z.
Proof.
  unfold wrap32, INT_MIN, INT_MAX. intros H.
  rewrite Z.mod_small by lia. lia.
Qed.

Lemma wrap32_range z : INT_MIN ≤ wrap32 z ≤ INT_MAX.
Proof.
  unfold wrap32, INT_MIN, INT_MAX.
  pose proof (Z.mod_pos_bound (z + 2 ^ 31) (2 ^ 32)). lia.
Qed.

Lemma wrap32_succ z : wrap32 (wrap32 z + 1) = wrap32 (z + 1).
Proof.
  unfold wrap32.
  replace ((z + 2 ^ 31) `mod` 2 ^ 32 - 2 ^ 31 + 1 + 2 ^ 31)
    with ((z + 2 ^ 31) `mod` 2 ^ 32 + 1) by lia.
  replace (z + 1 + 2 ^ 31) with (z + 2 ^ 31 + 1) by lia.
  rewrite Zplus_mod_idemp_l. reflexivity.
Qed.

(** ** Lists of workers *)

Lemma inflight_split (ws : list (worker J)) i w :
  ws !! i = Some w →
  ∃ rest, inflight ws ≡ₚ held w ++ rest ∧
          ∀ w', inflight (<[i:=w']> ws) ≡ₚ held w' ++ rest.
Proof.
  intros H. exists (inflight (take i ws) ++ inflight (drop (S i) ws)).
  pose proof (lookup_lt_Some _ _ _ H) as Hlt.
  split; [|intros w'; rewrite insert_take_drop by done];
    [rewrite <- (take_drop_middle ws i w H) at 1|];
    unfold inflight; rewrite bind_app, bind_cons;
    rewrite (assoc (++)), (comm (++) _ (held _)), <- (assoc (++)); done.
Qed.

Lemma inflight_nil (ws : list (worker J)) i w :
  ws !! i = Some w → inflight ws = [] → held w = [].
Proof.
  intros H Hn. destruct (inflight_split ws i w H) as (rest & Hp & _).
  rewrite Hn in Hp. symmetry in Hp. apply Permutation_nil_r in Hp.
  by apply app_eq_nil in Hp as [? _].
Qed.

Lemma incs_insert (ws : list (worker J)) i w w' :
  ws !! i = Some w →
  (sum_list_with incs (<[i:=w']> ws) + incs w
   = sum_list_with incs ws + incs w')%nat.
Proof.
  intros H. pose proof (lookup_lt_Some _ _ _ H) as Hlt.
  rewrite insert_take_drop by done.
  pose proof (f_equal (sum_list_with incs) (take_drop_middle ws i w H)) as E.
  rewrite sum_list_with_app in E |- *. simpl in *. lia.
Qed.

Lemma somes_length (q : list (option J)) : (length (somes q) ≤ length q)%nat.
Proof. induction q as [|[x|] q IH]; simpl; lia. Qed.

Lemma somes_full (q : list (option J)) :
  length (somes q) = length q → Forall is_Some q.
Proof.
  induction q as [|[x|] q IH]; simpl; intros H.
  - constructor.
  - constructor; [by eexists|]. apply IH. lia.
  - pose proof (somes_length q). unfold somes in *. lia.
Qed.

Lemma somes_app (q1 q2 : list (option J)) : somes (q1 ++ q2) = somes q1 ++ somes q2.
Proof. apply omap_app. Qed.

(** ** Workers other than the one that steps *)

Lemma worker_ok_other lk cnt lk' cnt' i k w :
  k ≠ i →
  worker_ok lk cnt k w →
  (lk' = lk ∧ cnt' = cnt)
  ∨ ((lk = None ∨ lk = Some i) ∧ (lk' = None ∨ lk' = Some i)) →
  worker_ok lk' cnt' k w.
Proof.
  intros Hne (He & Hs & Hl & Hv) [[-> ->]|[Hlk Hlk']]; [done|].
  assert (holds_lock (pc w) = false) as Hno.
  { destruct (holds_lock (pc w)) eqn:E; [|done].
    destruct Hl as [Hl _]. specialize (Hl eq_refl).
    destruct Hlk; simplify_eq. }
  repeat split; try done.
  - by rewrite Hno.
  - intros E. destruct Hlk'; simplify_eq.
  - intros j v E. rewrite E in Hno. done.
Qed.

Lemma workers_ok_step lk cnt lk' cnt' (ws : list (worker J)) i w w' :
  (∀ k x, ws !! k = Some x → worker_ok lk cnt k x) →
  ws !! i = Some w →
  worker_ok lk' cnt' i w' →
  (lk' = lk ∧ cnt' = cnt)
  ∨ ((lk = None ∨ lk = Some i) ∧ (lk' = None ∨ lk' = Some i)) →
  ∀ k x, <[i:=w']> ws !! k = Some x → worker_ok lk' cnt' k x.
Proof.
  intros Hall Hw Hok Hch k x Hx.
  destruct (decide (k = i)) as [->|Hne].
  - rewrite list_lookup_insert_eq in Hx by eauto using lookup_lt_Some.
    by simplify_eq.
  - rewrite list_lookup_insert_ne in Hx by done.
    eapply worker_ok_other; eauto.
Qed.

(** Once the manager has left the polling loop, every job is counted:
    none is queued, held or lost. *)
Lemma past_quiet c s :
  inv c s → past_poll (mgr s) = true →
  somes (queue s) = [] ∧ inflight (workers s) = [] ∧ lost s = []
  ∧ counted s ≡ₚ somes (jobs c) ∧ Forall is_Some (jobs c).
Proof.
  intros Hinv Hp.
  destruct (inv_past _ _ Hinv Hp) as [Hlen _].
  assert (mgr s ≠ MCreate) as Hne by (by destruct (mgr s)).
  destruct (inv_conserved _ _ Hinv Hne) as [_ Hperm].
  pose proof (Permutation_length Hperm) as Hl.
  rewrite !length_app in Hl.
  pose proof (somes_length (jobs c)).
  assert (length (somes (queue s)) = 0%nat) as H1 by lia.
  assert (length (inflight (workers s)) = 0%nat) as H2 by lia.
  assert (length (lost s) = 0%nat) as H3 by lia.
  apply nil_length_inv in H1, H2, H3.
  rewrite H1, H2, H3 in Hperm. simpl in Hperm. rewrite app_nil_r in Hperm.
  repeat split; try done.
  apply somes_full. lia.
Qed.

(** ** Every step preserves the invariant *)

Lemma joined_step m (ws : list (worker J)) i w w' :
  joined_ok m ws → ws !! i = Some w → terminated w = false →
  joined_ok m (<[i:=w']> ws).
Proof.
  intros H Hw Ht. destruct m; simpl in *; try done; intros k x.
  - intros Hk Hx. destruct (decide (k = i)) as [->|Hne].
    + rewrite (H i w Hk Hw) in Ht. done.
    + rewrite list_lookup_insert_ne in Hx by done. eauto.
  - intros Hx. destruct (decide (k = i)) as [->|Hne].
    + rewrite (H i w Hw) in Ht. done.
    + rewrite list_lookup_insert_ne in Hx by done. eauto.
Qed.

Lemma wstep_inv c i o s s' : inv c s → wstep i o s = Some s' → inv c s'.
Proof.
  intros Hinv Hstep. unfold wstep in Hstep.
  destruct (workers s !! i) as [w|] eqn:Hw; simpl in Hstep; [|done].
  pose proof (inv_workers _ _ Hinv i w Hw) as Hok.
  pose proof (inv_workers _ _ Hinv) as Hall.
  pose proof (inv_lock _ _ Hinv) as Hlock.
  pose proof (inv_counter _ _ Hinv) as Hcnt.
  pose proof (inv_incs _ _ Hinv) as Hincs.
  pose proof (inv_nworkers _ _ Hinv) as Hnw.
  pose proof (inv_sent _ _ Hinv) as Hsent.
  pose proof (inv_past _ _ Hinv) as Hpast.
  pose proof (inv_joined _ _ Hinv) as Hjoin.
  pose proof (past_quiet _ _ Hinv) as Hquiet.
  assert (mgr s ≠ MCreate) as Hne.
  { intros E. destruct (inv_fresh _ _ Hinv E) as (_ & Hws & _).
    rewrite Hws in Hw. done. }
  destruct (inv_conserved _ _ Hinv Hne) as [Htot Hperm].
  destruct (inflight_split _ _ _ Hw) as (rest & Hfl & Hfl').
  pose proof (λ w', incs_insert _ _ _ w' Hw) as Hsum.
  pose proof (inflight_nil _ _ _ Hw) as Hnil.
  pose proof (lookup_lt_Some _ _ _ Hw) as Hlt.
  pose proof (λ w' Ht, joined_step _ _ _ _ w' Hjoin Hw Ht) as Hjoin'.
  destruct Hok as (Heng & Hsen & Hlk & Hwr).
  unfold held in Hfl, Hnil. unfold terminated in Hjoin'.
  destruct (pc w) eqn:Hpc, o; try done; simpl in *.
  all: try (destruct (queue s) as [|[j0|] q] eqn:Hq; [done| |]).
  all: try (destruct (lock s) as [l0|] eqn:Hl; [done|]).
  all: simplify_eq; constructor; simpl; rewrite ?length_insert; try done.
  all: try (by apply Hjoin').
  all: try (match goal with |- length _ = sum_list_with _ (<[_:=?w']> _) =>
              specialize (Hsum w'); simpl in Hsum; rewrite ?length_app; simpl; lia end).
  all: try (eapply workers_ok_step; [exact Hall|exact Hw| |];
            [unfold worker_ok; simpl; split_and!; try done; try tauto
            |try (by left); try (right; split; tauto)]).
  all: try lia.
  all: try (intros _; split; [done|]; simpl; rewrite Hfl', <- Hperm, Hfl;
            unfold held, somes; simpl; rewrite ?omap_app; simpl; solve_Permutation).
  - intros ? [= <-]. done.
  - intros ? ? [= _ <-]. done.
  - rewrite (Hwr j v eq_refl), Hcnt, length_app. simpl.
    rewrite wrap32_succ. f_equal. lia.
  - intros Hp. destruct (Hquiet Hp) as (_ & Hin & _). by specialize (Hnil Hin).
Qed.

Lemma inflight_snoc (ws : list (worker J)) :
  inflight (ws ++ [new_worker]) = inflight ws.
Proof. unfold inflight. rewrite bind_app. simpl. by rewrite app_nil_r. Qed.

Lemma mstep_inv c s s' : inv c s → mstep c s = Some s' → inv c s'.
Proof.
  intros Hinv Hstep. unfold mstep in Hstep.
  pose proof (inv_workers _ _ Hinv) as Hall.
  pose proof (inv_lock _ _ Hinv) as Hlock.
  pose proof (inv_counter _ _ Hinv) as Hcnt.
  pose proof (inv_incs _ _ Hinv) as Hincs.
  pose proof (inv_fresh _ _ Hinv) as Hfresh.
  pose proof (inv_conserved _ _ Hinv) as Hcons.
  pose proof (inv_nworkers _ _ Hinv) as Hnw.
  pose proof (inv_sent _ _ Hinv) as Hsent.
  pose proof (inv_past _ _ Hinv) as Hpast.
  pose proof (inv_joined _ _ Hinv) as Hjoin.
  destruct (mgr s) eqn:Hm; simpl in *.
  - destruct (Hfresh eq_refl) as (Hq & Hws & Hc & Hl & Ht & Ho).
    rewrite Hq, Hws, Hc, Hl, Ht in *. simpl in *.
    destruct (Z.eqb_spec (0 + Z.of_nat (length (jobs c))) 0) as [E|E];
      simplify_eq; constructor; simpl; rewrite ?Hws, ?Hc, ?Hl; simpl; try done.
    all: try (intros _; split; [done|]; unfold inflight; simpl;
              by rewrite !app_nil_r).
    all: try lia.
    all: assert (jobs c = []) as Hj by (apply nil_length_inv; lia).
    + by right.
    + by right.
    + intros _. rewrite Hj. simpl. unfold INT_MAX. lia.
  - destruct (Nat.ltb_spec i (Z.to_nat (num_workers c))) as [E|E];
      simplify_eq; constructor; simpl; rewrite ?inflight_snoc, ?length_app;
      simpl; try done.
    + intros k x Hx. apply lookup_app_Some in Hx as [Hx|[Hk Hx]]; [eauto|].
      apply list_lookup_singleton_Some in Hx as [Hk' <-].
      unfold worker_ok; simpl. split_and!; try done.
      split; [done|]. intros Hl. apply Hlock in Hl. lia.
    + intros k Hk. apply Hlock in Hk. lia.
    + rewrite sum_list_with_app. simpl. lia.
    + intros _. destruct Hcons as [? ?]; [done|]. split; [done|].
      simpl. by rewrite inflight_snoc.
    + lia.
    + intros _. by apply Hcons.
    + lia.
  - destruct (lock s) eqn:Hl; [done|].
    destruct (Z.ltb_spec (counter s) (total_jobs s)) as [E|E];
      simplify_eq; constructor; simpl; rewrite ?Hl; try done.
    + intros _. by apply Hcons.
    + intros _. by apply Hcons.
    + intros _. destruct Hcons as [Ht Hp]; [done|].
      apply Permutation_length in Hp. rewrite !length_app in Hp.
      pose proof (somes_length (jobs c)).
      pose proof (wrap32_range (Z.of_nat (length (counted s)))).
      destruct (decide (Z.of_nat (length (counted s)) ≤ INT_MAX)) as [Hle|Hgt].
      * rewrite wrap32_small in Hcnt by (unfold INT_MIN; lia). lia.
      * lia.
  - destruct (lock s) eqn:Hl; [done|].
    simplify_eq; constructor; simpl; rewrite ?Hl; try done.
    intros _. by apply Hcons.
  - simplify_eq; constructor; simpl; try done.
    + intros _. by apply Hcons.
    + split; [done|lia].
  - destruct (Nat.ltb_spec i (Z.to_nat (num_workers c))) as [E|E];
      simplify_eq; constructor; simpl; try done.
    + intros _. destruct Hcons as [? ?]; [done|]. split; [done|].
      simpl. unfold somes. rewrite omap_app. simpl. by rewrite app_nil_r.
    + lia.
    + intros _. by apply Hcons.
    + lia.
    + intros k x Hk. lia.
  - destruct (workers s !! i) as [w|] eqn:Hw;
      [destruct (terminated w) eqn:Ht; [|done]|];
      simplify_eq; constructor; simpl; try done.
    + intros _. by apply Hcons.
    + intros k x Hk Hx. destruct (decide (k = i)) as [->|]; [by simplify_eq|].
      apply (Hjoin k x); [lia|done].
    + intros _. by apply Hcons.
    + by left.
    + by left.
    + intros k x Hx. apply (Hjoin k x); [|done].
      apply lookup_ge_None in Hw. apply lookup_lt_Some in Hx. lia.
  - done.
Qed.

Lemma step_inv c l s s' : inv c s → step c l s = Some s' → inv c s'.
Proof. destruct l; [apply mstep_inv|apply wstep_inv]. Qed.

Lemma exec_inv c tr s s' : inv c s → exec c tr s = Some s' → inv c s'.
Proof.
  revert s. induction tr as [|l tr IH]; simpl; intros s Hinv Hex.
  - by simplify_eq.
  - destruct (step c l s) as [s1|] eqn:Hs; simpl in Hex; [|done].
    eauto using step_inv.
Qed.

Lemma init_inv c : inv c init.
Proof.
  constructor; simpl; try done.
Qed.

Lemma reach_inv c tr s : reach c tr s → inv c s.
Proof. apply exec_inv, init_inv. Qed.

(** ** Runs built phase by phase *)

Lemma exec_app c tr1 tr2 s :
  exec c (tr1 ++ tr2) s = exec c tr1 s ≫= exec c tr2.
Proof.
  revert s. induction tr1 as [|l tr1 IH]; simpl; intros s; [done|].
  destruct (step c l s); simpl; [apply IH|done].
Qed.

Lemma reach_app c tr1 tr2 s1 s2 :
  reach c tr1 s1 → exec c tr2 s1 = Some s2 → reach c (tr1 ++ tr2) s2.
Proof. unfold reach. intros H1 H2. by rewrite exec_app, H1. Qed.

(** [start_workers]: [m] more iterations of the loop. *)
Lemma exec_start c m q cnt lk ws i t b o sn cd ls :
  (i + m ≤ Z.to_nat (num_workers c))%nat →
  exec c (replicate m Mgr) (mk_state q cnt lk ws (MStart i) t b o sn cd ls)
  = Some (mk_state q cnt lk (ws ++ replicate m new_worker) (MStart (i + m))
            t b o sn cd ls).
Proof.
  revert ws i. induction m as [|m IH]; intros ws i Hle; simpl.
  - by rewrite app_nil_r, Nat.add_0_r.
  - unfold mstep; simpl.
    destruct (Nat.ltb_spec i (Z.to_nat (num_workers c))); [|lia]. simpl.
    rewrite IH by lia. by rewrite <- app_assoc, Nat.add_succ_r.
Qed.

(** [stop_workers]: [m] more sentinels. *)
Lemma exec_stop c m q cnt lk ws i t b o sn cd ls :
  (i + m ≤ Z.to_nat (num_workers c))%nat →
  exec c (replicate m Mgr) (mk_state q cnt lk ws (MStop i) t b o sn cd ls)
  = Some (mk_state (q ++ replicate m None) cnt lk ws (MStop (i + m))
            t b o (sn + m) cd ls).
Proof.
  revert q i sn. induction m as [|m IH]; intros q i sn Hle; simpl.
  - by rewrite app_nil_r, !Nat.add_0_r.
  - unfold mstep; simpl.
    destruct (Nat.ltb_spec i (Z.to_nat (num_workers c))); [|lia]. simpl.
    rewrite IH by lia. by rewrite <- app_assoc, !Nat.add_succ_r.
Qed.

(** The joins, once every worker has ended. *)
Lemma exec_join c m q cnt lk ws i t b o sn cd ls :
  Forall (λ w, terminated w = true) ws →
  (i + m ≤ length ws)%nat →
  exec c (replicate m Mgr) (mk_state q cnt lk ws (MJoin i) t b o sn cd ls)
  = Some (mk_state q cnt lk ws (MJoin (i + m)) t b o sn cd ls).
Proof.
  intros Hall. revert i. induction m as [|m IH]; intros i Hle; simpl.
  - by rewrite Nat.add_0_r.
  - unfold mstep; simpl.
    destruct (lookup_lt_is_Some_2 ws i) as [w Hw]; [lia|]. rewrite Hw.
    rewrite (proj1 (Forall_lookup _ _) Hall i w Hw). unfold set_mgr; simpl.
    rewrite IH by lia. by rewrite Nat.add_succ_r.
Qed.

Lemma replicate_shift {A} n (x : A) l :
  replicate n x ++ x :: l = replicate (S n) x ++ l.
Proof. induction n as [|n IH]; simpl; [done|]. by rewrite IH. Qed.

(** Every started worker obtains its engine. *)
Lemma exec_engines c b a q cnt lk m t br o sn cd ls :
  exec c ((λ i, Wk i Ok) <$> seq a b)
    (mk_state q cnt lk (replicate a (idle [] 0) ++ replicate b new_worker)
       m t br o sn cd ls)
  = Some (mk_state q cnt lk (replicate (a + b) (idle [] 0)) m t br o sn cd ls).
Proof.
  revert a. induction b as [|b IH]; intros a; simpl.
  - by rewrite app_nil_r, Nat.add_0_r.
  - unfold wstep; simpl.
    rewrite lookup_app_r by (rewrite length_replicate; lia).
    rewrite length_replicate, Nat.sub_diag. simpl.
    unfold set_worker; simpl.
    rewrite insert_app_r_alt by (rewrite length_replicate; lia).
    rewrite length_replicate, Nat.sub_diag. simpl.
    rewrite replicate_shift.
    rewrite IH. by rewrite Nat.add_succ_r.
Qed.

Implicit Types (q : list (option J)) (cs cd ls js : list J).
Implicit Types (pre todo rest : list (worker J)).

Lemma exec_cycle c j q cnt cs n rest m t br o sn cd ls :
  exec c (job_cycle 0)
    (mk_state (Some j :: q) cnt None (idle cs n :: rest) m t br o sn cd ls)
  = Some (mk_state q (wrap32 (cnt + 1)) None (idle (cs ++ [j]) (S n) :: rest)
            m t br o sn (cd ++ [j]) ls).
Proof. reflexivity. Qed.

(** Worker 0 handles the jobs at the head of the queue, one after the
    other; each store wraps. *)
Lemma exec_jobs c js q cnt cs n rest m t br o sn cd ls :
  exec c (mjoin (replicate (length js) (job_cycle 0)))
    (mk_state ((Some <$> js) ++ q) cnt None (idle cs n :: rest)
       m t br o sn cd ls)
  = Some (mk_state q (Nat.iter (length js) (λ v, wrap32 (v + 1)) cnt) None
            (idle (cs ++ js) (n + length js) :: rest)
            m t br o sn (cd ++ js) ls).
Proof.
  revert cnt cs n cd. induction js as [|j js IH]; intros cnt cs n cd.
  - simpl. by rewrite !app_nil_r, Nat.add_0_r.
  - change (length (j :: js)) with (S (length js)).
    change (mjoin (replicate (S (length js)) (job_cycle 0)))
      with (job_cycle 0 ++ mjoin (replicate (length js) (job_cycle 0))).
    rewrite exec_app.
    change (Some <$> j :: js) with (Some j :: (Some <$> js)).
    rewrite <- app_comm_cons, exec_cycle. simpl.
    rewrite IH, <- !app_assoc. simpl.
    rewrite Nat.add_succ_r. f_equal. f_equal.
    clear. induction (length js) as [|k IHk]; simpl; [done|]. by rewrite IHk.
Qed.

Lemma iter_wrap32 k z :
  Nat.iter k (λ v, wrap32 (v + 1)) (wrap32 z) = wrap32 (z + Z.of_nat k).
Proof.
  induction k as [|k IH]; simpl.
  - f_equal. lia.
  - rewrite IH, wrap32_succ. f_equal. lia.
Qed.

Lemma insert_middle {A} (l1 l2 : list A) x y :
  <[length l1:=y]> (l1 ++ x :: l2) = l1 ++ y :: l2.
Proof. rewrite insert_app_r_alt, Nat.sub_diag by lia. done. Qed.

Ltac wstep_middle :=
  unfold wstep; cbn [workers]; rewrite list_lookup_middle by done;
  cbn; unfold set_worker, set_queue, set_lock, set_pc; cbn;
  rewrite insert_middle; done.

Lemma wstep_get_none pre todo q cnt lk e cs n k m t br o sn cd ls :
  wstep (length pre) Ok
    (mk_state (None :: q) cnt lk (pre ++ mk_worker WGet e cs n k :: todo)
       m t br o sn cd ls)
  = Some (mk_state q cnt lk (pre ++ mk_worker WAck e cs n (S k) :: todo)
            m t br o sn cd ls).
Proof. wstep_middle. Qed.

Lemma wstep_ack pre todo q cnt lk e cs n k m t br o sn cd ls :
  wstep (length pre) Ok
    (mk_state q cnt lk (pre ++ mk_worker WAck e cs n k :: todo)
       m t br o sn cd ls)
  = Some (mk_state q cnt lk (pre ++ mk_worker WDispose e cs n k :: todo)
            m t br o sn cd ls).
Proof. wstep_middle. Qed.

Lemma wstep_dispose pre todo q cnt lk e cs n k m t br o sn cd ls :
  wstep (length pre) Ok
    (mk_state q cnt lk (pre ++ mk_worker WDispose e cs n k :: todo)
       m t br o sn cd ls)
  = Some (mk_state q cnt lk (pre ++ mk_worker WDone Disposed cs n k :: todo)
            m t br o sn cd ls).
Proof. wstep_middle. Qed.

Lemma exec_shutdown1 c pre w todo q cnt lk m t br o sn cd ls :
  pc w = WGet →
  exec c (shutdown (length pre))
    (mk_state (None :: q) cnt lk (pre ++ w :: todo) m t br o sn cd ls)
  = Some (mk_state q cnt lk (pre ++ finish w :: todo) m t br o sn cd ls).
Proof.
  intros Hw. destruct w as [p e cs n k]; simpl in Hw; subst p.
  unfold shutdown. cbn [replicate exec step].
  rewrite wstep_get_none. cbn [mbind option_bind].
  rewrite wstep_ack. cbn [mbind option_bind].
  rewrite wstep_dispose. done.
Qed.

(** Each of the workers from [length done] on pulls one sentinel. *)
Lemma exec_shutdown c todo pre q cnt lk m t br o sn cd ls :
  Forall (λ w, pc w = WGet) todo →
  exec c (seq (length pre) (length todo) ≫= shutdown)
    (mk_state (replicate (length todo) None ++ q) cnt lk (pre ++ todo)
       m t br o sn cd ls)
  = Some (mk_state q cnt lk (pre ++ (finish <$> todo)) m t br o sn cd ls).
Proof.
  revert pre. induction todo as [|w todo IH]; intros pre Hall.
  - done.
  - apply Forall_cons in Hall as [Hw Hall].
    change (seq (length pre) (length (w :: todo)) ≫= shutdown)
      with (shutdown (length pre)
            ++ (seq (S (length pre)) (length todo) ≫= shutdown)).
    rewrite exec_app.
    change (replicate (length (w :: todo)) None ++ q)
      with (None :: (replicate (length todo) (@None J) ++ q)).
    rewrite exec_shutdown1 by done. cbn [mbind option_bind].
    specialize (IH (pre ++ [finish w]) Hall).
    rewrite length_app in IH. simpl in IH.
    replace (length pre + 1)%nat with (S (length pre)) in IH by lia.
    rewrite <- !app_assoc in IH. simpl in IH. exact IH.
Qed.

Lemma quiet_schedule_quiet k n :
  Forall (λ l, no_raise l = true ∧ no_fault l = true) (quiet_schedule k n).
Proof.
  assert (∀ m, Forall (λ l, no_raise l = true ∧ no_fault l = true)
                 (replicate m Mgr)) as Hm
    by (intros m; apply Forall_replicate; done).
  assert (∀ m i, Forall (λ l, no_raise l = true ∧ no_fault l = true)
                 (replicate m (Wk i Ok))) as Hw
    by (intros m i; apply Forall_replicate; done).
  unfold quiet_schedule. destruct k as [|k]; [by repeat constructor|].
  unfold busy_schedule.
  repeat (apply Forall_app; split); try apply Hm; try by repeat constructor.
  - apply Forall_fmap, Forall_forall. done.
  - apply Forall_join, Forall_replicate, Hw.
  - apply Forall_bind, Forall_forall. intros i _. apply Hw.
Qed.

(** The first attempts raise: each puts its job back at the end. *)
Lemma exec_retries c r js cs o cnt n rest m t br sn cd ls :
  js ≠ [] →
  ∃ js' cs' o',
    js' ≡ₚ js ∧
    exec c (mjoin (replicate r (retry_cycle 0)))
      (mk_state (Some <$> js) cnt None (idle cs n :: rest) m t br o sn cd ls)
    = Some (mk_state (Some <$> js') cnt None (idle cs' n :: rest)
              m t br o' sn cd ls).
Proof.
  revert js cs o. induction r as [|r IH]; intros js cs o Hne.
  - by exists js, cs, o.
  - destruct js as [|j js]; [done|].
    destruct (IH (js ++ [j]) (cs ++ [j]) (o ++ [MsgError j]))
      as (js' & cs' & o' & Hp & He); [by destruct js|].
    exists js', cs', o'. split.
    + rewrite Hp. by rewrite Permutation_app_comm.
    + change (mjoin (replicate (S r) (retry_cycle 0)))
        with (retry_cycle 0 ++ mjoin (replicate r (retry_cycle 0))).
      rewrite exec_app.
      change (exec c (retry_cycle 0)
                (mk_state (Some <$> j :: js) cnt None (idle cs n :: rest)
                   m t br o sn cd ls))
        with (Some (mk_state ((Some <$> js) ++ [Some j]) cnt None
                      (idle (cs ++ [j]) n :: rest) m t br (o ++ [MsgError j])
                      sn cd ls)).
      cbn [mbind option_bind].
      rewrite fmap_app in He. exact He.
Qed.

(** A run in which the first [r] handler calls raise and all later calls
    succeed returns, with every job counted once. *)
Lemma busy_run c js r :
  jobs c = Some <$> js → js ≠ [] →
  Z.of_nat (length js) ≤ INT_MAX →
  1 ≤ num_workers c →
  ∃ s, reach c (busy_schedule r (length js) (Z.to_nat (num_workers c))) s
       ∧ mgr s = MReturned ∧ counted s ≡ₚ js
       ∧ counter s = Z.of_nat (length js).
Proof.
  intros Hj Hlen Hmax Hn. destruct c as [jb nw]. simpl in *. subst jb.
  assert (length js ≠ 0%nat) as Hlen' by (by destruct js).
  remember (Z.to_nat nw) as n eqn:Hnw.
  assert (n ≠ 0%nat) as Hn0 by lia.
  set (c := mk_config (Some <$> js) nw).
  set (total := Z.of_nat (length js)) in *.
  assert (num_workers c = nw) as Hcn by done.
  destruct n as [|n']; [done|].
  destruct (exec_retries c r js [] [] 0 0%nat (replicate n' (idle [] 0))
              MPoll total 0 0%nat [] []) as (js' & cs' & o' & Hp & Hretry);
    [done|].
  assert (length js' = length js) as Hl' by (by rewrite Hp).
  eexists. split.
  - unfold reach, busy_schedule.
    rewrite exec_app.
    assert (exec c [Mgr] init
            = Some (mk_state (Some <$> js) 0 None [] (MStart 0) total 0 []
                      0%nat [] [])) as ->.
    { unfold exec, step, mstep. cbn [mgr init jobs c total_jobs].
      rewrite length_fmap. fold total.
      destruct (Z.eqb_spec (0 + total) 0); [lia|]. done. }
    cbn [mbind option_bind].
    rewrite exec_app, exec_app, exec_start by (rewrite Hcn; lia).
    cbn [mbind option_bind].
    rewrite app_nil_l, Nat.add_0_l.
    assert (∀ q cnt lk ws t b o sn cd ls,
              exec c [Mgr] (mk_state q cnt lk ws (MStart (S n')) t b o sn cd ls)
              = Some (mk_state q cnt lk ws MPoll t b o sn cd ls)) as Hstart.
    { intros. unfold exec, step, mstep. cbn [mgr]. rewrite Hcn, <- Hnw.
      by rewrite Nat.ltb_irrefl. }
    assert (∀ q cnt lk ws t b o sn cd ls,
              exec c [Mgr] (mk_state q cnt lk ws (MStop (S n')) t b o sn cd ls)
              = Some (mk_state q cnt lk ws (MJoin 0) t b o sn cd ls)) as Hstop.
    { intros. unfold exec, step, mstep. cbn [mgr]. rewrite Hcn, <- Hnw.
      by rewrite Nat.ltb_irrefl. }
    rewrite Hstart. cbn [mbind option_bind].
    rewrite exec_app.
    pose proof (exec_engines c (S n') 0) as He.
    rewrite app_nil_l, Nat.add_0_l in He.
    rewrite He. cbn [mbind option_bind]. clear He.
    rewrite exec_app.
    change (replicate (S n') (idle [] 0))
      with (idle (@nil J) 0 :: replicate n' (idle [] 0)).
    rewrite Hretry. cbn [mbind option_bind].
    rewrite exec_app.
    rewrite <- (app_nil_r (Some <$> js')), <- Hl', exec_jobs.
    cbn [mbind option_bind].
    change 0 with (wrap32 0) at 1. rewrite iter_wrap32, Z.add_0_l.
    rewrite Hl'. fold total.
    rewrite (wrap32_small total) by (unfold INT_MIN; lia).
    rewrite exec_app.
    assert (∀ q ws b o sn cd ls,
              exec c [Mgr; Mgr] (mk_state q total None ws MPoll total b o sn cd ls)
              = Some (mk_state q total None ws (MStop 0) total
                        (b + (total - b)) o sn cd ls)) as ->.
    { intros. unfold exec, step, mstep. cbn.
      by rewrite Z.ltb_irrefl. }
    cbn [mbind option_bind].
    rewrite exec_app, exec_app, exec_stop by (rewrite Hcn; lia).
    cbn [mbind option_bind]. rewrite Nat.add_0_l, Hstop.
    cbn [mbind option_bind].
    rewrite exec_app.
    pose proof (exec_shutdown c (idle (cs' ++ js') (0 + length js)
                                   :: replicate n' (idle [] 0)) []) as Hs.
    cbn [length] in Hs. rewrite length_replicate in Hs.
    rewrite app_nil_l.
    rewrite <- (app_nil_r (replicate (S n') None)), Hs; clear Hs.
    2:{ constructor; [done|]. by apply Forall_replicate. }
    cbn [mbind option_bind].
    rewrite exec_app, exec_join.
    2:{ apply Forall_fmap, Forall_forall. done. }
    2:{ rewrite app_nil_l, length_fmap. cbn [length].
        rewrite length_replicate. lia. }
    cbn [mbind option_bind].
    unfold exec, step, mstep. cbn [mgr workers].
    rewrite lookup_ge_None_2.
    2:{ rewrite app_nil_l, length_fmap. cbn [length].
        rewrite length_replicate. lia. }
    reflexivity.
  - cbn. done.
Qed.

Lemma busy_schedule_raises r k n : raises (busy_schedule r k n) = r.
Proof.
  assert (∀ m, raises (replicate m Mgr) = 0%nat) as Hm
    by (intros m; induction m; done).
  assert (∀ m i, raises (replicate m (Wk i Ok)) = 0%nat) as Hw
    by (intros m i; induction m; done).
  assert (∀ t1 t2, raises (t1 ++ t2) = (raises t1 + raises t2)%nat) as Happ
    by (intros; apply sum_list_with_app).
  assert (∀ a, raises ((λ i, Wk i Ok) <$> seq a n) = 0%nat) as He.
  { induction n as [|n IH]; intros a; [done|]. apply (IH (S a)). }
  assert (raises (mjoin (replicate k (job_cycle 0))) = 0%nat) as Hk.
  { induction k as [|k IH]; [done|]. exact IH. }
  assert (∀ a, raises (seq a n ≫= shutdown) = 0%nat) as Hs.
  { clear He. induction n as [|n IH]; intros a; [done|]. apply (IH (S a)). }
  assert (raises (mjoin (replicate r (retry_cycle 0))) = r) as Hr.
  { induction r as [|r IH]; [done|].
    change (mjoin (replicate (S r) (retry_cycle 0)))
      with (retry_cycle 0 ++ mjoin (replicate r (retry_cycle 0))).
    rewrite Happ, IH. done. }
  unfold busy_schedule. rewrite !Happ, !Hm, He, Hk, Hs, Hr.
  change (raises [Mgr]) with 0%nat. change (raises [Mgr; Mgr]) with 0%nat. lia.
Qed.

(** A run in which no call fails returns. *)
Lemma quiet_run c js :
  jobs c = Some <$> js →
  Z.of_nat (length js) ≤ INT_MAX →
  (js ≠ [] → 1 ≤ num_workers c) →
  ∃ s, reach c (quiet_schedule (length js) (Z.to_nat (num_workers c))) s
       ∧ mgr s = MReturned ∧ counted s ≡ₚ js.
Proof.
  intros Hj Hmax Hn. destruct js as [|j js'].
  { destruct c as [jb nw]. simpl in *. subst jb.
    eexists. split; [reflexivity|]. done. }
  destruct (busy_run c (j :: js') 0) as (s & Hr & Hm & Hc & _); try done.
  { by apply Hn. }
  by exists s.
Qed.

(** ** What a single step can change *)

Ltac wstep_cases Hstep w Hw :=
  unfold wstep in Hstep;
  match type of Hstep with
  | context [workers ?s !! ?i] =>
      destruct (workers s !! i) as [w|] eqn:Hw; simpl in Hstep; [|done];
      destruct (pc w) eqn:?, (queue s) as [|[?|] ?] eqn:?, (lock s) eqn:?;
      match type of Hstep with
      | context [match ?o with Ok => _ | _ => _ end] => destruct o
      | _ => idtac
      end; simplify_eq
  end.

Ltac mstep_cases Hstep :=
  unfold mstep in Hstep;
  match type of Hstep with
  | context [mgr ?s] =>
      destruct (mgr s) eqn:?; repeat case_match; simplify_eq
  end.

(** The manager never writes the counter; a worker writes it only in the
    store of line 40, which logs the job. *)
Lemma step_counter c l s s' :
  step c l s = Some s' →
  (counter s' = counter s ∧ counted s' = counted s)
  ∨ (∃ i j v w, l = Wk i Ok ∧ workers s !! i = Some w ∧ pc w = WWrite j v
                ∧ counter s' = wrap32 (v + 1) ∧ counted s' = counted s ++ [j]).
Proof.
  destruct l as [|i o]; simpl; intros Hstep.
  - mstep_cases Hstep; by left.
  - wstep_cases Hstep w Hw; try (by left).
    all: right; eauto 10.
Qed.

Lemma mstep_counter c s s' : mstep c s = Some s' → counter s' = counter s.
Proof.
  intros H. destruct (step_counter c Mgr s s' H) as [[? _]|(?&?&?&?&?&_)]; done.
Qed.



(** Without a failing queue operation no job is lost and no worker dies. *)
Lemma step_sound c l s s' :
  no_fault l = true → step c l s = Some s' → sound s → sound s'.
Proof.
  destruct l as [|i o]; simpl; intros Hnf Hstep [Hl Hw].
  - mstep_cases Hstep; split; simpl; try done.
    apply Forall_app; split; [done|]. by repeat constructor.
  - wstep_cases Hstep w Hw'; try done; split; simpl; try done.
    all: apply Forall_insert; done.
Qed.

Lemma exec_sound c tr s s' :
  Forall (λ l, no_fault l = true) tr → exec c tr s = Some s' →
  sound s → sound s'.
Proof.
  revert s. induction tr as [|l tr IH]; simpl; intros s Hf H Hs;
    [by simplify_eq|].
  apply Forall_cons in Hf as [Hl Hf].
  destruct (step c l s) as [s1|] eqn:Hs1; simpl in H; [|done].
  eauto using step_sound.
Qed.

(** A worker past the sentinel test calls [process_job] no more, and an
    ended worker never changes. *)
Lemma step_drained c l s s' i w :
  step c l s = Some s' → workers s !! i = Some w → drained (pc w) = true →
  ∃ w', workers s' !! i = Some w' ∧ drained (pc w') = true
        ∧ (calls w' = calls w ∧ sentinels w' = sentinels w)
        ∧ (terminated w = true → w' = w).
Proof.
  destruct l as [|k o]; simpl; intros Hstep Hw Hd.
  - mstep_cases Hstep; simpl; try (by exists w).
    exists w. split; [|done]. by apply lookup_app_l_Some.
  - assert (∀ x, k ≠ i → <[k:=x]> (workers s) !! i = Some w) as Hne
      by (intros; by rewrite list_lookup_insert_ne).
    destruct (decide (k = i)) as [->|Hki].
    + unfold wstep in Hstep. rewrite Hw in Hstep. simpl in Hstep.
      unfold terminated.
      destruct (pc w) eqn:Hpc; try done; destruct o; simplify_eq; simpl.
      all: rewrite list_lookup_insert_eq by eauto using lookup_lt_Some.
      all: eexists; split; [done|]; done.
    + wstep_cases Hstep x Hx; simpl; try done.
      all: exists w; rewrite Hne; done.
Qed.

Lemma exec_drained c tr s s' i w :
  exec c tr s = Some s' → workers s !! i = Some w → drained (pc w) = true →
  ∃ w', workers s' !! i = Some w' ∧ drained (pc w') = true
        ∧ (calls w' = calls w ∧ sentinels w' = sentinels w)
        ∧ (terminated w = true → w' = w).
Proof.
  revert s w. induction tr as [|l tr IH]; simpl; intros s w H Hw Hd.
  - simplify_eq. by exists w.
  - destruct (step c l s) as [s1|] eqn:Hs1; simpl in H; [|done].
    destruct (step_drained _ _ _ _ _ _ Hs1 Hw Hd)
      as (w1 & Hw1 & Hd1 & [Hc1 Hn1] & Ht1).
    destruct (IH _ _ H Hw1 Hd1) as (w' & Hw' & Hd' & [Hc' Hn'] & Ht').
    exists w'. split_and!; try done; [congruence|congruence|].
    intros Ht. specialize (Ht1 Ht). subst w1. auto.
Qed.

(** ** The manager's run *)

Lemma all_some (q : list (option J)) :
  Forall is_Some q → ∃ js, q = Some <$> js.
Proof.
  induction 1 as [|x q [j ->] _ [js ->]]; [by exists []|]. by exists (j :: js).
Qed.

(** C1 (completion).  Whenever [run] has returned, the progress counter
    equals the number [k] of jobs that [create_jobs] enqueued and every
    started worker process has ended; this holds in every interleaving,
    also when handlers raise.  And [run] does return: when no job is
    [None], [k] fits the 32-bit counter and there is a worker, the schedule
    in which no call raises or fails reaches the return. *)
Theorem run_completion c :
  (∀ tr s, reach c tr s → mgr s = MReturned →
     counter s = Z.of_nat (length (jobs c))
     ∧ Forall (λ w, terminated w = true) (workers s))
  ∧ (Forall is_Some (jobs c) →
     Z.of_nat (length (jobs c)) ≤ INT_MAX →
     (jobs c ≠ [] → 1 ≤ num_workers c) →
     ∃ tr s, Forall (λ l, no_raise l = true ∧ no_fault l = true) tr
             ∧ reach c tr s ∧ mgr s = MReturned).
Proof.
  split.
  - intros tr s Hr Hm. apply reach_inv in Hr.
    destruct (inv_past _ _ Hr) as [Hlen Hmax]; [by rewrite Hm|].
    split.
    + rewrite (inv_counter _ _ Hr), Hlen.
      apply wrap32_small. unfold INT_MIN. lia.
    + pose proof (inv_joined _ _ Hr) as Hj. rewrite Hm in Hj.
      apply Forall_lookup. exact Hj.
  - intros Hs Hmax Hn. destruct (all_some _ Hs) as [js Hjs].
    destruct (quiet_run c js) as (s & Hr & Hm & _); try done.
    + rewrite Hjs, length_fmap in Hmax. done.
    + intros Hne. apply Hn. rewrite Hjs. by destruct js.
    + exists (quiet_schedule (length js) (Z.to_nat (num_workers c))), s.
      split; [apply quiet_schedule_quiet|done].
Qed.

Lemma wstep_raise s i w j :
  workers s !! i = Some w → pc w = WProc j →
  wstep i Raise s
  = Some (mk_state (queue s) (counter s) (lock s)
            (<[i:=mk_worker (WReput j) (engine w) (calls w ++ [j]) (incs w)
                    (sentinels w)]> (workers s))
            (mgr s) (total_jobs s) (bar s) (stdout s ++ [MsgError j])
            (sent s) (counted s) (lost s)).
Proof. intros Hw Hpc. unfold wstep. rewrite Hw. simpl. by rewrite Hpc. Qed.

(** C2 (retry).  When [process_job] raises on the job [j] that worker [i]
    holds, the worker puts [j] back at the end of the queue, leaves the
    counter alone and is back at [get()], still running.  Consequently no
    job is ever counted more often than it was enqueued; as long as no
    queue operation fails, a job that is not yet counted is still queued or
    held; and when [run] has returned every job has been counted exactly
    once, however often its handler raised.  Such runs exist for every
    number [r] of raising calls followed by successes. *)
Theorem retry_on_failure c :
  (∀ tr s, reach c tr s →
     (∀ i w j, workers s !! i = Some w → pc w = WProc j →
        ∃ s' w', exec c [Wk i Raise; Wk i Ok] s = Some s'
          ∧ queue s' = queue s ++ [Some j]
          ∧ counter s' = counter s ∧ counted s' = counted s
          ∧ workers s' !! i = Some w' ∧ pc w' = WGet
          ∧ calls w' = calls w ++ [j])
     ∧ counted s ⊆+ somes (jobs c)
     ∧ (Forall (λ l, no_fault l = true) tr → mgr s ≠ MCreate →
        somes (queue s) ++ inflight (workers s) ++ counted s
          ≡ₚ somes (jobs c))
     ∧ (mgr s = MReturned → counted s ≡ₚ somes (jobs c)))
  ∧ (∀ r js, jobs c = Some <$> js → js ≠ [] →
       Z.of_nat (length js) ≤ INT_MAX → 1 ≤ num_workers c →
       ∃ tr s, raises tr = r ∧ reach c tr s ∧ mgr s = MReturned
               ∧ counted s ≡ₚ js ∧ counter s = Z.of_nat (length js)).
Proof.
  split.
  2:{ intros r js Hj Hne Hmax Hn.
      destruct (busy_run c js r Hj Hne Hmax Hn) as (s & Hr & Hm & Hc & Hk).
      eexists _, s. split; [apply busy_schedule_raises|done]. }
  intros tr s Hr. pose proof (reach_inv _ _ _ Hr) as Hinv. split_and!.
  - intros i w j Hw Hpc.
    pose proof (lookup_lt_Some _ _ _ Hw) as Hlt.
    cbn [exec step]. rewrite (wstep_raise s i w j Hw Hpc).
    cbn [mbind option_bind]. unfold wstep. cbn [workers].
    rewrite list_lookup_insert_eq by done. cbn.
    eexists _, _. split; [done|]. cbn.
    rewrite list_lookup_insert_eq by (by rewrite length_insert). done.
  - assert (mgr s = MCreate ∨ mgr s ≠ MCreate) as [Hm|Hm]
      by (destruct (mgr s); auto).
    + destruct (inv_fresh _ _ Hinv Hm) as (_ & _ & -> & _).
      apply submseteq_nil_l.
    + destruct (inv_conserved _ _ Hinv Hm) as [_ Hp]. rewrite <- Hp.
      solve_submseteq.
  - intros Hnf Hm. destruct (inv_conserved _ _ Hinv Hm) as [_ Hp].
    destruct (exec_sound c tr init s Hnf Hr) as [Hl _]; [by split|].
    by rewrite Hl, app_nil_r in Hp.
  - intros Hm. by destruct (past_quiet _ _ Hinv) as (_ & _ & _ & ? & _);
      [by rewrite Hm|].
Qed.

(** ** Sentinels *)




(** ** No jobs *)

(** C4 (zero jobs).  When [create_jobs] enqueues nothing, the first step
    of [run] prints the notice and returns, and nothing else ever happens:
    no worker is started, no sentinel is put and the counter stays 0. *)
Theorem zero_jobs c :
  jobs c = [] →
  reach c [Mgr] returned_idle
  ∧ (∀ tr s, reach c tr s →
       workers s = [] ∧ sent s = 0%nat ∧ counter s = 0 ∧ queue s = []
       ∧ ((tr = [] ∧ s = init) ∨ (tr = [Mgr] ∧ s = returned_idle))).
Proof.
  intros Hj.
  assert (mstep c init = Some returned_idle) as H1.
  { unfold mstep. simpl. by rewrite Hj. }
  split; [unfold reach; simpl; by rewrite H1|].
  intros tr s Hr. unfold reach in Hr.
  destruct tr as [|[|i o] tr]; simpl in Hr.
  - simplify_eq. split_and!; try done. by left.
  - rewrite H1 in Hr. simpl in Hr.
    destruct tr as [|[|i o] tr]; simpl in Hr; [|done|done].
    simplify_eq. split_and!; try done. by right.
  - done.
Qed.

(** ** The progress counter *)

Lemma sum_incs_const (ws : list (worker J)) M :
  Forall (λ w, incs w = M) ws → sum_list_with incs ws = (length ws * M)%nat.
Proof. induction 1 as [|w ws Hw _ IH]; simpl; [done|]. lia. Qed.

(** C5, as the code has it.  The counter starts at 0.  In every
    interleaving it equals the wrapped sum of the increments the workers
    have completed, so no update is lost: [N] workers with [M] increments
    each give [N * M] as long as that is at most [2^31 - 1].  The manager,
    and with it the polling loop, never writes it.  Any step either leaves
    it alone or is the store of a worker that counts one more job and adds
    1 modulo [2^32]: below [2^31 - 1] it is never decremented and grows by
    exactly 1 per counted job. *)
Theorem counter_discipline c tr s :
  reach c tr s →
  counter (@init J) = 0
  ∧ counter s = wrap32 (Z.of_nat (sum_list_with incs (workers s)))
  ∧ length (counted s) = sum_list_with incs (workers s)
  ∧ (∀ N M, length (workers s) = N →
       Forall (λ w, incs w = M) (workers s) →
       Z.of_nat (N * M) ≤ INT_MAX → counter s = Z.of_nat (N * M))
  ∧ (∀ l s', step c l s = Some s' →
       (l = Mgr → counter s' = counter s)
       ∧ ((counter s' = counter s ∧ counted s' = counted s)
          ∨ (∃ j, counted s' = counted s ++ [j]
                  ∧ counter s' = wrap32 (counter s + 1)))
       ∧ (counter s < INT_MAX → counter s ≤ counter s' ≤ counter s + 1)).
Proof.
  intros Hr. pose proof (reach_inv _ _ _ Hr) as Hinv.
  pose proof (inv_counter _ _ Hinv) as Hc.
  pose proof (inv_incs _ _ Hinv) as Hi.
  split_and!; try done.
  - by rewrite <- Hi.
  - intros N M HN HM Hmax. rewrite Hc, Hi, (sum_incs_const _ M HM), HN.
    apply wrap32_small. unfold INT_MIN. lia.
  - intros l s' Hs.
    assert ((counter s' = counter s ∧ counted s' = counted s)
            ∨ (∃ j, counted s' = counted s ++ [j]
                    ∧ counter s' = wrap32 (counter s + 1))) as Hcase.
    { destruct (step_counter _ _ _ _ Hs)
        as [?|(i & j & v & w & _ & Hw & Hpc & Hv & Hcd)]; [by left|].
      right. exists j. split; [done|].
      destruct (inv_workers _ _ Hinv i w Hw) as (_ & _ & _ & Hwr).
      by rewrite <- (Hwr j v Hpc). }
    split_and!; try done.
    + intros ->. by apply (mstep_counter c).
    + intros Hlt. destruct Hcase as [[-> _]|(j & _ & ->)]; [lia|].
      pose proof (wrap32_range (Z.of_nat (length (counted s)))) as Hrg.
      rewrite <- Hc in Hrg.
      rewrite wrap32_small; [lia|]. lia.
Qed.

(** A run that reaches the store at counter value [n] (wrapped): one
    worker, [n] jobs counted, one more about to be. *)
Lemma overflow_run (j : J) n :
  let c := mk_config (Some <$> replicate (S n) j) 1 in
  ∃ tr s s', reach c tr s ∧ step c (Wk 0 Ok) s = Some s'
             ∧ counter s = wrap32 (Z.of_nat n)
             ∧ counter s' = wrap32 (Z.of_nat n + 1)
             ∧ length (counted s') = S n.
Proof.
  intros c.
  set (total := Z.of_nat (length (Some <$> replicate (S n) j))).
  exists ([Mgr] ++ [Mgr; Mgr] ++ [Wk 0 Ok]
          ++ mjoin (replicate (length (replicate n j)) (job_cycle 0))
          ++ replicate 4 (Wk 0 Ok)).
  eexists _, _. split; [|split].
  - unfold reach. rewrite exec_app.
    assert (exec c [Mgr] init
            = Some (mk_state (Some <$> replicate (S n) j) 0 None []
                      (MStart 0) total 0 [] 0%nat [] [])) as ->.
    { unfold exec, step, mstep. cbn [mgr init jobs c total_jobs]. fold total.
      destruct (Z.eqb_spec (0 + total) 0) as [E|E]; [|done].
      unfold total in E. rewrite length_fmap, length_replicate in E. lia. }
    cbn [mbind option_bind]. rewrite exec_app.
    assert (∀ q, exec c [Mgr; Mgr]
                   (mk_state q 0 None [] (MStart 0) total 0 [] 0%nat [] [])
                 = Some (mk_state q 0 None [new_worker] MPoll total 0 []
                           0%nat [] [])) as -> by done.
    cbn [mbind option_bind]. rewrite exec_app.
    assert (∀ q, exec c [Wk 0 Ok]
                   (mk_state q 0 None [new_worker] MPoll total 0 [] 0%nat [] [])
                 = Some (mk_state q 0 None [idle [] 0] MPoll total 0 []
                           0%nat [] [])) as -> by done.
    cbn [mbind option_bind]. rewrite exec_app.
    rewrite (replicate_S_end n j), fmap_app, exec_jobs.
    cbn [mbind option_bind].
    reflexivity.
  - reflexivity.
  - cbn. rewrite length_replicate.
    assert (Nat.iter n (λ v, wrap32 (v + 1)) 0 = wrap32 (Z.of_nat n)) as ->.
    { change 0 with (wrap32 0) at 1. by rewrite iter_wrap32, Z.add_0_l. }
    rewrite wrap32_succ, length_app, length_replicate. simpl.
    split_and!; [done|done|lia].
Qed.

(** ** The engine of a worker *)

(** C6, as the code has it.  A worker has no engine before its first
    step and a live one from then on; the engine is disposed exactly when
    the worker has left the loop through the sentinel branch.  A worker
    killed by an error that nothing in [run] catches keeps its engine
    undisposed for ever: there is no cleanup on that path. *)
Theorem engine_lifecycle c tr s i w :
  reach c tr s → workers s !! i = Some w →
  (engine w = NoEngine ↔ pc w = WStart)
  ∧ (engine w = Disposed ↔ pc w = WDone)
  ∧ (pc w = WStart → ∃ s' w', step c (Wk i Ok) s = Some s'
       ∧ workers s' !! i = Some w' ∧ engine w' = Live)
  ∧ (pc w = WDone → sentinels w = 1%nat)
  ∧ (pc w = WDead → engine w = Live
       ∧ ∀ tr' s' w', exec c tr' s = Some s' → workers s' !! i = Some w' →
           w' = w).
Proof.
  intros Hr Hw. pose proof (reach_inv _ _ _ Hr) as Hinv.
  destruct (inv_workers _ _ Hinv i w Hw) as (He & Hs & _).
  split_and!.
  - destruct (pc w); split; intros; try done; congruence.
  - destruct (pc w); split; intros; try done; congruence.
  - intros Hpc. simpl. unfold wstep. rewrite Hw. simpl. rewrite Hpc.
    eexists _, _. split; [done|]. simpl.
    rewrite list_lookup_insert_eq by eauto using lookup_lt_Some. done.
  - intros Hpc. by rewrite Hpc in Hs.
  - intros Hpc. rewrite Hpc in He. split; [done|].
    intros tr' s' w' Hex Hw'.
    destruct (exec_drained _ _ _ _ _ _ Hex Hw) as (w1 & Hw1 & _ & _ & Ht);
      [by rewrite Hpc|].
    unfold terminated in Ht. rewrite Hpc in Ht. specialize (Ht eq_refl).
    congruence.
Qed.

(** ** [None] on the queue *)

(** C10.  A worker at [get()] that finds [None] at the head of the queue
    takes the sentinel branch: in its next three steps it acknowledges,
    disposes its engine and ends, and [process_job] is not called; so a
    [None] that [create_jobs] enqueued as a job ends a worker and is never
    handled or counted.  No other outcome is possible at that [get()] short
    of a failing queue operation. *)
Theorem none_is_sentinel c s i w q :
  workers s !! i = Some w → pc w = WGet → queue s = None :: q →
  wstep i Raise s = None
  ∧ ∃ s', exec c (shutdown i) s = Some s'
      ∧ workers s' !! i
        = Some (mk_worker WDone Disposed (calls w) (incs w) (S (sentinels w)))
      ∧ queue s' = q ∧ counter s' = counter s ∧ counted s' = counted s
      ∧ mgr s' = mgr s
      ∧ ∀ k, k ≠ i → workers s' !! k = workers s !! k.
Proof.
  intros Hw Hpc Hq. pose proof (lookup_lt_Some _ _ _ Hw) as Hlt.
  split; [unfold wstep; rewrite Hw; simpl; by rewrite Hpc|].
  assert (∀ s0 w0, workers s0 !! i = Some w0 →
            wstep i Ok s0
            = match pc w0 with
              | WAck => Some (set_worker i (set_pc WDispose w0) s0)
              | WDispose =>
                  Some (set_worker i
                          (mk_worker WDone Disposed (calls w0) (incs w0)
                             (sentinels w0)) s0)
              | _ => wstep i Ok s0
              end) as Hstep.
  { intros s0 w0 H0. unfold wstep. rewrite H0. simpl. by destruct (pc w0). }
  assert (wstep i Ok s
          = Some (set_worker i
                    (mk_worker WAck (engine w) (calls w) (incs w)
                       (S (sentinels w))) (set_queue q s))) as H1.
  { unfold wstep. rewrite Hw. simpl. by rewrite Hpc, Hq. }
  unfold shutdown. cbn [replicate exec step].
  rewrite H1. cbn [mbind option_bind].
  erewrite Hstep by (cbn; by apply list_lookup_insert_eq).
  cbn [pc mbind option_bind].
  erewrite Hstep
    by (cbn; apply list_lookup_insert_eq; by rewrite length_insert).
  cbn [pc set_pc mbind option_bind].
  eexists. split; [done|]. cbn.
  rewrite !list_insert_insert_eq.
  rewrite list_lookup_insert_eq by done. split_and!; try done.
  intros k Hk. by rewrite list_lookup_insert_ne.
Qed.

(** ** The default number of workers of the [util] variant *)

Lemma no_workers c tr s :
  num_workers c ≤ 0 → reach c tr s →
  workers s = [] ∧ sent s = 0%nat ∧ counter s = 0
  ∧ (jobs c ≠ [] → past_poll (mgr s) = false
       ∧ counter s < Z.of_nat (length (jobs c))).
Proof.
  intros Hn Hr. pose proof (reach_inv _ _ _ Hr) as Hinv.
  pose proof (inv_nworkers _ _ Hinv) as Hw.
  pose proof (inv_sent _ _ Hinv) as Hs.
  assert (workers s = []) as Hws.
  { apply nil_length_inv. destruct (mgr s); simpl in *; lia. }
  assert (counted s = []) as Hc.
  { apply nil_length_inv. rewrite (inv_incs _ _ Hinv), Hws. done. }
  assert (counter s = 0) as Hk by (by rewrite (inv_counter _ _ Hinv), Hc).
  split_and!; try done.
  - destruct (mgr s); simpl in *; lia.
  - intros Hne. split.
    + destruct (past_poll (mgr s)) eqn:Hp; [|done].
      destruct (inv_past _ _ Hinv Hp) as [Hl _]. rewrite Hc in Hl.
      symmetry in Hl. by apply nil_length_inv in Hl.
    + rewrite Hk. destruct (jobs c); [done|]. simpl. lia.
Qed.

(** C9.  In the [util] variant a manager built without [num_workers]
    ends up with [num_workers = -1]: the [os.cpu_count()] of line 48 is
    overwritten at line 52.  Then the loop of [start_workers] starts no
    worker and the loop of [stop_workers] puts no sentinel; in every
    reachable state there is no worker and the counter is 0; and with at
    least one job the manager never leaves the polling loop, which it does
    enter and go round any number of times. *)
Theorem util_default_workers (cpu_count : Z) (create : list (option J)) :
  let c := util_manager_init cpu_count create None in
  num_workers c = -1
  ∧ (∀ s, mgr s = MStart 0 → mstep c s = Some (set_mgr MPoll s))
  ∧ (∀ s, mgr s = MStop 0 → mstep c s = Some (set_mgr (MJoin 0) s))
  ∧ (∀ tr s, reach c tr s →
       workers s = [] ∧ sent s = 0%nat ∧ counter s = 0
       ∧ (create ≠ [] → past_poll (mgr s) = false
            ∧ counter s < Z.of_nat (length create)))
  ∧ (create ≠ [] → ∀ k, ∃ s,
       reach c ([Mgr; Mgr] ++ mjoin (replicate k [Mgr; Mgr])) s
       ∧ mgr s = MPoll ∧ total_jobs s = Z.of_nat (length create)).
Proof.
  intros c. split_and!.
  - done.
  - intros s Hm. unfold mstep. by rewrite Hm.
  - intros s Hm. unfold mstep. by rewrite Hm.
  - intros tr s Hr. by apply (no_workers c tr s).
  - intros Hne k.
    set (total := Z.of_nat (length create)).
    assert (0 < total) as Ht by (unfold total; destruct create; [done|simpl; lia]).
    exists (mk_state create 0 None [] MPoll total 0 [] 0%nat [] []).
    split; [|done]. unfold reach. rewrite exec_app.
    assert (exec c [Mgr; Mgr] init
            = Some (mk_state create 0 None [] MPoll total 0 [] 0%nat [] []))
      as ->.
    { unfold exec, step, mstep. cbn. fold total.
      destruct (Z.eqb_spec (0 + total) 0); [lia|]. cbn.
      by rewrite Z.add_0_l. }
    cbn [mbind option_bind].
    induction k as [|k IH]; [done|].
    change (mjoin (replicate (S k) [Mgr; Mgr]))
      with ([Mgr; Mgr] ++ mjoin (replicate k [Mgr; Mgr])).
    rewrite exec_app.
    assert (exec c [Mgr; Mgr]
              (mk_state create 0 None [] MPoll total 0 [] 0%nat [] [])
            = Some (mk_state create 0 None [] MPoll total 0 [] 0%nat [] []))
      as ->.
    { unfold exec, step, mstep. cbn.
      destruct (Z.ltb_spec 0 total); [|lia]. done. }
    cbn [mbind option_bind]. exact IH.
Qed.

(** ** Sentinels are accounted for *)

Lemma sum_insert (f : worker J → nat) (ws : list (worker J)) i w w' :
  ws !! i = Some w →
  (sum_list_with f (<[i:=w']> ws) + f w = sum_list_with f ws + f w')%nat.
Proof.
  intros H. pose proof (lookup_lt_Some _ _ _ H) as Hlt.
  rewrite insert_take_drop by done.
  pose proof (f_equal (sum_list_with f) (take_drop_middle ws i w H)) as E.
  rewrite sum_list_with_app in E |- *. simpl in *. lia.
Qed.

Lemma nones_app (q1 q2 : list (option J)) :
  nones (q1 ++ q2) = (nones q1 + nones q2)%nat.
Proof. apply sum_list_with_app. Qed.

Lemma step_accounted c l s s' :
  inv c s → accounted c s → step c l s = Some s' → accounted c s'.
Proof.
  intros Hinv Ha Hstep. unfold accounted in *.
  destruct l as [|i o]; simpl in Hstep.
  - pose proof (inv_fresh _ _ Hinv) as Hf.
    mstep_cases Hstep; simpl in *;
      rewrite ?nones_app; unfold pulled in *;
      rewrite ?sum_list_with_app; simpl; try lia.
    all: destruct (Hf eq_refl) as (Hq & _); rewrite Hq in *; simpl in *; lia.
  - assert (mgr s ≠ MCreate) as Hne.
    { intros E. destruct (inv_fresh _ _ Hinv E) as (_ & Hws & _).
      unfold wstep in Hstep. by rewrite Hws in Hstep. }
    wstep_cases Hstep w Hw; unfold set_pc; simpl in *;
      rewrite ?nones_app; unfold pulled in *; simpl.
    all: match goal with
         | |- context [<[?k:=?w']> (workers ?s0)] =>
             pose proof (sum_insert sentinels _ k _ w' Hw) as Hs; simpl in Hs
         end.
    all: repeat match goal with
                | H : queue _ = _ |- _ => rewrite ?H in *; clear H
                end; simpl in *.
    all: try lia.
Qed.

Lemma exec_accounted c tr s s' :
  inv c s → accounted c s → exec c tr s = Some s' → accounted c s'.
Proof.
  revert s. induction tr as [|l tr IH]; simpl; intros s Hinv Ha H;
    [by simplify_eq|].
  destruct (step c l s) as [s1|] eqn:Hs1; simpl in H; [|done].
  eauto using step_accounted, step_inv.
Qed.

Lemma reach_accounted c tr s : reach c tr s → accounted c s.
Proof. apply exec_accounted; [apply init_inv|done]. Qed.
(** ** Any state can be brought to rest *)

Lemma quiet_app tr1 tr2 : quiet tr1 → quiet tr2 → quiet (tr1 ++ tr2).
Proof. intros. by apply Forall_app. Qed.

Lemma quiet_no_fault tr : quiet tr → Forall (λ l, no_fault l = true) tr.
Proof. unfold quiet. intros H. eapply Forall_impl; [exact H|]. by intros l [_ ?]. Qed.

(** A worker that is not at rest and not kept out by the lock can take
    its next step, which brings it closer to rest. *)
Lemma advance c s i w :
  inv c s → workers s !! i = Some w → dist (pc w) ≠ 0%nat →
  lock s = None ∨ lock s = Some i →
  ∃ s' w', wstep i Ok s = Some s' ∧ workers s' !! i = Some w'
    ∧ S (dist (pc w')) = dist (pc w)
    ∧ (lock s' = None ∨ lock s' = Some i)
    ∧ mgr s' = mgr s
    ∧ length (workers s') = length (workers s)
    ∧ ∀ k, k ≠ i → workers s' !! k = workers s !! k.
Proof.
  intros Hinv Hw Hd Hlk.
  pose proof (lookup_lt_Some _ _ _ Hw) as Hlt.
  destruct (inv_workers _ _ Hinv i w Hw) as (_ & _ & Hh & _).
  assert (∀ x, <[i:=x]> (workers s) !! i = Some x) as Hi
    by (intros; by apply list_lookup_insert_eq).
  assert (∀ x k, k ≠ i → <[i:=x]> (workers s) !! k = workers s !! k) as Hk
    by (intros; by apply list_lookup_insert_ne).
  unfold wstep. rewrite Hw. simpl.
  destruct (pc w) eqn:Hpc; simpl in *; try done.
  all: try (eexists _, _; split; [done|]; simpl;
            rewrite ?length_insert; split_and!; eauto; done).
  (* [get_lock()] *)
  destruct (lock s) as [n|] eqn:Hl.
  - destruct Hlk as [?|Hlk]; [done|]. apply Hh in Hlk. done.
  - eexists _, _. split; [done|]. simpl.
    rewrite ?length_insert. split_and!; eauto.
Qed.

Lemma settle_one c i : ∀ n s w,
  inv c s → workers s !! i = Some w → dist (pc w) = n →
  lock s = None ∨ lock s = Some i →
  ∃ tr' s' w', quiet tr' ∧ exec c tr' s = Some s'
    ∧ workers s' !! i = Some w' ∧ dist (pc w') = 0%nat
    ∧ lock s' = None
    ∧ mgr s' = mgr s
    ∧ length (workers s') = length (workers s)
    ∧ ∀ k, k ≠ i → workers s' !! k = workers s !! k.
Proof.
  induction n as [|n IH]; intros s w Hinv Hw Hd Hlk.
  - exists [], s, w. split_and!; try done; [constructor|].
    destruct Hlk as [?|Hlk]; [done|].
    destruct (inv_workers _ _ Hinv i w Hw) as (_ & _ & Hh & _).
    apply Hh in Hlk. destruct (pc w); done.
  - destruct (advance c s i w Hinv Hw) as
      (s1 & w1 & Hs1 & Hw1 & Hd1 & Hlk1 & Hm1 & Hlen1 & Hk1); [lia|done|].
    assert (inv c s1) as Hinv1 by (by apply (step_inv c (Wk i Ok) s)).
    destruct (IH s1 w1 Hinv1 Hw1) as
      (tr' & s' & w' & Hq & He & Hw' & Hd' & Hlk' & Hm' & Hlen' & Hk');
      [lia|done|].
    exists (Wk i Ok :: tr'), s', w'. split_and!; try done.
    + by constructor.
    + simpl. by rewrite Hs1.
    + congruence.
    + congruence.
    + intros k Hne. rewrite Hk', Hk1; done.
Qed.

(** Every worker can be brought to rest, with the lock free. *)
Lemma settle_all c s :
  inv c s →
  ∃ tr' s', quiet tr' ∧ exec c tr' s = Some s'
    ∧ lock s' = None ∧ mgr s' = mgr s
    ∧ ∀ k w, workers s' !! k = Some w → dist (pc w) = 0%nat.
Proof.
  intros Hinv.
  (* first the holder of the lock *)
  assert (∃ tr0 s0, quiet tr0 ∧ exec c tr0 s = Some s0 ∧ lock s0 = None
                    ∧ mgr s0 = mgr s) as (tr0 & s0 & Hq0 & He0 & Hl0 & Hm0).
  { destruct (lock s) as [i|] eqn:Hl;
      [|exists [], s; split_and!; try done; constructor].
    destruct (lookup_lt_is_Some_2 (workers s) i) as [w Hw];
      [by apply (inv_lock _ _ Hinv)|].
    destruct (settle_one c i _ s w Hinv Hw eq_refl) as
      (tr' & s' & _ & ? & ? & _ & _ & ? & ? & _); [by right|].
    by exists tr', s'. }
  assert (inv c s0) as Hinv0 by (eapply exec_inv; eauto).
  (* then the workers one after the other *)
  assert (∀ m, (m ≤ length (workers s0))%nat →
            ∃ tr' s', quiet tr' ∧ exec c tr' s0 = Some s'
              ∧ lock s' = None ∧ mgr s' = mgr s0
              ∧ length (workers s') = length (workers s0)
              ∧ ∀ k w, (k < m)%nat → workers s' !! k = Some w →
                  dist (pc w) = 0%nat) as Hall.
  { induction m as [|m IH]; intros Hm.
    - exists [], s0. split_and!; try done; [constructor|intros; lia].
    - destruct IH as (tr1 & s1 & Hq1 & He1 & Hl1 & Hm1 & Hlen1 & Hd1); [lia|].
      assert (inv c s1) as Hinv1 by (eapply exec_inv; eauto).
      destruct (lookup_lt_is_Some_2 (workers s1) m) as [w Hw]; [lia|].
      destruct (settle_one c m _ s1 w Hinv1 Hw eq_refl) as
        (tr2 & s2 & w2 & Hq2 & He2 & Hw2 & Hd2 & Hl2 & Hm2 & Hlen2 & Hk2);
        [by left|].
      exists (tr1 ++ tr2), s2. split_and!; try congruence.
      + by apply quiet_app.
      + by rewrite exec_app, He1.
      + intros k x Hk Hx. destruct (decide (k = m)) as [->|Hne].
        * congruence.
        * rewrite Hk2 in Hx by done. apply (Hd1 k x); [lia|done]. }
  destruct (Hall (length (workers s0))) as
    (tr1 & s1 & Hq1 & He1 & Hl1 & Hm1 & Hlen1 & Hd1); [done|].
  exists (tr0 ++ tr1), s1. split_and!; try congruence.
  - by apply quiet_app.
  - by rewrite exec_app, He0.
  - intros k w Hw. apply (Hd1 k w); [|done].
    apply lookup_lt_Some in Hw. lia.
Qed.
(** ** Any run without failed queue operations can be completed *)

Lemma reach_good c tr s :
  reach c tr s → Forall (λ l, no_fault l = true) tr → good c s.
Proof.
  intros Hr Hnf. split_and!.
  - by apply (reach_inv c tr).
  - apply (exec_sound c tr init s Hnf Hr). by split.
  - by apply (reach_accounted c tr).
Qed.

Lemma exec_good c tr s s' :
  good c s → quiet tr → exec c tr s = Some s' → good c s'.
Proof.
  intros (Hi & Hs & Ha) Hq He. split_and!.
  - eapply exec_inv; eauto.
  - apply (exec_sound c tr s s' (quiet_no_fault tr Hq) He Hs).
  - eapply exec_accounted; eauto.
Qed.

Lemma quiet_mgr n : quiet (replicate n Mgr).
Proof. apply Forall_replicate. done. Qed.

Lemma nones_zero (q : list (option J)) :
  nones q = 0%nat → q = Some <$> somes q.
Proof.
  induction q as [|[j|] q IH]; simpl; intros H; [done| |done].
  f_equal. by apply IH.
Qed.

Lemma somes_nil (q : list (option J)) :
  somes q = [] → q = replicate (nones q) None.
Proof.
  induction q as [|[j|] q IH]; simpl; intros H; [done|done|].
  f_equal. by apply IH.
Qed.

Lemma nones_all_some (q : list (option J)) :
  Forall is_Some q → nones q = 0%nat.
Proof. induction 1 as [|x q [j ->] _ IH]; simpl; [done|]. exact IH. Qed.

Lemma inflight_waiting (ws : list (worker J)) :
  Forall (λ w, settled (pc w) = true) ws → inflight ws = [].
Proof.
  induction 1 as [|w ws Hw _ IH]; [done|].
  change (inflight (w :: ws)) with (held w ++ inflight ws).
  rewrite IH. unfold held. by destruct (pc w).
Qed.

(** At rest in a sound state: at [get()] or returned. *)
Lemma rest_settled c s :
  good c s → (∀ k w, workers s !! k = Some w → dist (pc w) = 0%nat) →
  Forall (λ w, settled (pc w) = true) (workers s).
Proof.
  intros (_ & [_ Hd] & _) Hr. apply Forall_lookup. intros k w Hw.
  specialize (Hr k w Hw).
  pose proof (proj1 (Forall_lookup _ _) Hd k w Hw) as Hnd. simpl in Hnd.
  by destruct (pc w).
Qed.

Section Completion.

Variable c : config J.
Hypothesis jobs_some : Forall is_Some (jobs c).
Hypothesis jobs_fit : Z.of_nat (length (jobs c)) ≤ INT_MAX.
Hypothesis has_worker : jobs c ≠ [] → 1 ≤ num_workers c.

Lemma completes_after tr1 s s1 :
  quiet tr1 → exec c tr1 s = Some s1 → completes c s1 → completes c s.
Proof.
  intros Hq He (tr2 & s2 & Hq2 & He2 & Hm).
  exists (tr1 ++ tr2), s2. split_and!; [by apply quiet_app| |done].
  by rewrite exec_app, He.
Qed.

(** The joins. *)
Lemma from_join_ended : ∀ d s k,
  mgr s = MJoin k → (length (workers s) - k = d)%nat →
  Forall (λ w, terminated w = true) (workers s) → completes c s.
Proof.
  induction d as [|d IH]; intros s k Hm Hd Hall.
  - exists [Mgr], (set_mgr MReturned s). split_and!; [by repeat constructor| |done].
    simpl. unfold mstep. rewrite Hm.
    by rewrite lookup_ge_None_2 by lia.
  - destruct (lookup_lt_is_Some_2 (workers s) k) as [w Hw]; [lia|].
    apply (completes_after [Mgr] s (set_mgr (MJoin (S k)) s)).
    + by repeat constructor.
    + simpl. unfold mstep. rewrite Hm, Hw.
      by rewrite (proj1 (Forall_lookup _ _) Hall k w Hw).
    + apply (IH _ (S k)); simpl; [done|lia|done].
Qed.

Lemma quiet_drain i todo : quiet (drain_schedule i todo).
Proof.
  revert i. induction todo as [|w todo IH]; intros i; [constructor|].
  simpl. apply quiet_app; [|apply IH].
  destruct (pc w); try constructor; try done.
  all: repeat constructor.
Qed.

Lemma exec_drain todo pre q cnt lk m t br o sn cd ls :
  Forall (λ w, settled (pc w) = true) todo →
  exec c (drain_schedule (length pre) todo)
    (mk_state (replicate (sum_list_with waiting todo) None ++ q) cnt lk
       (pre ++ todo) m t br o sn cd ls)
  = Some (mk_state q cnt lk (pre ++ (retire <$> todo)) m t br o sn cd ls).
Proof.
  revert pre. induction todo as [|w todo IH]; intros pre Hall.
  - done.
  - apply Forall_cons in Hall as [Hw Hall].
    specialize (IH (pre ++ [retire w]) Hall).
    rewrite length_app in IH. simpl in IH.
    replace (length pre + 1)%nat with (S (length pre)) in IH by lia.
    rewrite <- !app_assoc in IH. simpl in IH.
    change (drain_schedule (length pre) (w :: todo))
      with (match pc w with WGet => shutdown (length pre) | _ => [] end
            ++ drain_schedule (S (length pre)) todo).
    change (sum_list_with waiting (w :: todo))
      with (waiting w + sum_list_with waiting todo)%nat.
    change (retire <$> w :: todo) with (retire w :: (retire <$> todo)).
    assert (retire w = match pc w with WGet => finish w | _ => w end) as Hr
      by done.
    unfold waiting at 1.
    destruct (pc w) eqn:Hpc; try done.
    + rewrite exec_app.
      change (replicate (1 + sum_list_with waiting todo) None ++ q)
        with (None :: (replicate (sum_list_with waiting todo) (@None J) ++ q)).
      rewrite exec_shutdown1 by done. cbn [mbind option_bind].
      rewrite Hr in IH |- *. exact IH.
    + cbn [app Nat.add]. rewrite Hr in IH |- *. exact IH.
Qed.

Lemma pulled_waiting (ws : list (worker J)) :
  Forall (λ w, (sentinels w + waiting w = 1)%nat) ws →
  (pulled ws + sum_list_with waiting ws = length ws)%nat.
Proof.
  induction 1 as [|w ws Hw _ IH]; [done|].
  unfold pulled in *. simpl. lia.
Qed.

Lemma somes_all (q : list (option J)) :
  Forall is_Some q → length (somes q) = length q.
Proof. induction 1 as [|x q [j ->] _ IH]; simpl; [done|]. by rewrite IH. Qed.

(** From the joins on. *)
Lemma from_join s k : good c s → mgr s = MJoin k → completes c s.
Proof.
  intros Hg Hm. destruct Hg as (Hinv & Hsound & Hacc).
  destruct (settle_all c s Hinv) as (tr1 & s1 & Hq1 & He1 & Hl1 & Hm1 & Hd1).
  assert (good c s1) as Hg1 by (by apply (exec_good c tr1 s)).
  apply (completes_after tr1 s s1 Hq1 He1).
  pose proof (rest_settled c s1 Hg1 Hd1) as Hset.
  destruct Hg1 as (Hinv1 & Hsound1 & Hacc1).
  rewrite Hm in Hm1.
  destruct (past_quiet c s1 Hinv1) as (Hsq & _); [by rewrite Hm1|].
  pose proof (inv_sent _ _ Hinv1) as Hsent. rewrite Hm1 in Hsent.
  pose proof (inv_nworkers _ _ Hinv1) as Hnw. rewrite Hm1 in Hnw.
  simpl in Hsent, Hnw.
  unfold accounted in Hacc1. rewrite Hm1, (nones_all_some _ jobs_some) in Hacc1.
  assert (Forall (λ w, (sentinels w + waiting w = 1)%nat) (workers s1)) as Hsw.
  { apply Forall_lookup. intros i w Hw.
    destruct (inv_workers _ _ Hinv1 i w Hw) as (_ & Hs & _).
    pose proof (proj1 (Forall_lookup _ _) Hset i w Hw) as Hst. simpl in Hst.
    unfold waiting. destruct (pc w); simpl in *; try done; lia. }
  pose proof (pulled_waiting _ Hsw) as Hpw.
  assert (queue s1 = replicate (sum_list_with waiting (workers s1)) None ++ [])
    as Hqueue.
  { rewrite app_nil_r, (somes_nil _ Hsq). f_equal. lia. }
  pose proof (exec_drain (workers s1) [] [] (counter s1) (lock s1) (mgr s1)
                (total_jobs s1) (bar s1) (stdout s1) (sent s1) (counted s1)
                (lost s1) Hset) as Hdrain.
  rewrite <- Hqueue in Hdrain. simpl in Hdrain.
  assert (mk_state (queue s1) (counter s1) (lock s1) (workers s1) (mgr s1)
            (total_jobs s1) (bar s1) (stdout s1) (sent s1) (counted s1)
            (lost s1) = s1) as Hs1 by (by destruct s1).
  rewrite Hs1 in Hdrain.
  eapply (completes_after _ s1 _ (quiet_drain 0 (workers s1)) Hdrain).
  eapply (from_join_ended _ _ k); [by simpl|done|]. simpl.
  apply Forall_fmap. eapply Forall_impl; [exact Hset|].
  intros w Hw. simpl in *. unfold retire, terminated.
  destruct (pc w) eqn:E; simpl; rewrite ?E; done.
Qed.

(** From the sentinel loop on. *)
Lemma from_stop : ∀ d s i,
  good c s → mgr s = MStop i → (Z.to_nat (num_workers c) - i = d)%nat →
  completes c s.
Proof.
  induction d as [|d IH]; intros s i Hg Hm Hd.
  - assert (exec c [Mgr] s = Some (set_mgr (MJoin 0) s)) as He.
    { simpl. unfold mstep. rewrite Hm.
      destruct (Nat.ltb_spec i (Z.to_nat (num_workers c))); [lia|done]. }
    apply (completes_after [Mgr] s _ (quiet_mgr 1) He).
    apply (from_join _ 0%nat); [|done].
    by apply (exec_good c [Mgr] s _ Hg (quiet_mgr 1)).
  - assert (∃ s1, exec c [Mgr] s = Some s1 ∧ mgr s1 = MStop (S i))
      as (s1 & He & Hm1).
    { simpl. unfold mstep. rewrite Hm.
      destruct (Nat.ltb_spec i (Z.to_nat (num_workers c))); [|lia].
      by eexists. }
    apply (completes_after [Mgr] s _ (quiet_mgr 1) He).
    apply (IH _ (S i)); [|done|lia].
    by apply (exec_good c [Mgr] s _ Hg (quiet_mgr 1)).
Qed.

Lemma from_final s : good c s → mgr s = MBarFinal → completes c s.
Proof.
  intros Hg Hm.
  assert (∃ s1, exec c [Mgr] s = Some s1 ∧ mgr s1 = MStop 0)
    as (s1 & He & Hm1).
  { simpl. unfold mstep. rewrite Hm. by eexists. }
  apply (completes_after [Mgr] s _ (quiet_mgr 1) He).
  apply (from_stop (Z.to_nat (num_workers c) - 0) _ 0%nat); [|done|done].
  by apply (exec_good c [Mgr] s _ Hg (quiet_mgr 1)).
Qed.

Lemma quiet_cycles k : quiet (mjoin (replicate k (@job_cycle 0))).
Proof.
  induction k as [|k IH]; [constructor|].
  change (mjoin (replicate (S k) (job_cycle 0)))
    with (job_cycle 0 ++ mjoin (replicate k (job_cycle 0))).
  apply quiet_app; [|done]. by repeat constructor.
Qed.

(** With the workers at rest and the lock free, the queued jobs can all
    be handled: afterwards nothing is queued or held. *)
Lemma handle_queue s :
  good c s → mgr s = MPoll ∨ mgr s = MBar → lock s = None →
  Forall (λ w, settled (pc w) = true) (workers s) →
  ∃ tr' s', quiet tr' ∧ exec c tr' s = Some s' ∧ mgr s' = mgr s
    ∧ lock s' = None ∧ queue s' = []
    ∧ Forall (λ w, settled (pc w) = true) (workers s').
Proof.
  intros (Hinv & Hsound & Hacc) Hm Hl Hset.
  assert (mgr s ≠ MCreate) as Hne by (destruct Hm as [E|E]; by rewrite E).
  destruct (inv_conserved _ _ Hinv Hne) as [_ Hperm].
  pose proof (inv_sent _ _ Hinv) as Hsent.
  pose proof (inv_nworkers _ _ Hinv) as Hnw.
  unfold accounted in Hacc.
  assert (sent s = 0%nat ∧ length (workers s) = Z.to_nat (num_workers c)
          ∧ (nones (queue s) + pulled (workers s) = 0)%nat) as (Hs0 & Hlen & Hn0).
  { rewrite (nones_all_some _ jobs_some) in Hacc.
    destruct Hm as [E|E]; rewrite E in *; simpl in *; split_and!; try done; lia. }
  assert (queue s = Some <$> somes (queue s)) as Hq
    by (apply nones_zero; lia).
  destruct (somes (queue s)) as [|j js] eqn:Hjs.
  { exists [], s. split_and!; try done. constructor. }
  assert (jobs c ≠ []) as Hj.
  { intros E. rewrite E in Hperm. simpl in Hperm.
    apply Permutation_nil_r in Hperm. done. }
  specialize (has_worker Hj).
  destruct (workers s) as [|w0 rest] eqn:Hws; [simpl in Hlen; lia|].
  apply Forall_cons in Hset as [Hw0 Hrest].
  destruct (inv_workers _ _ Hinv 0%nat w0) as (He0 & Hs0' & _);
    [by rewrite Hws|].
  assert (sentinels w0 = 0%nat) as Hsen0
    by (unfold pulled in Hn0; simpl in Hn0; lia).
  assert (w0 = idle (calls w0) (incs w0)) as Hidle.
  { destruct w0 as [p e cs n k]. simpl in *.
    destruct p; simpl in *; try done; try lia. by subst. }
  pose proof (exec_jobs c (j :: js) [] (counter s) (calls w0) (incs w0) rest
                (mgr s) (total_jobs s) (bar s) (stdout s) (sent s)
                (counted s) (lost s)) as Hex.
  rewrite app_nil_r, <- Hq, <- Hidle, <- Hws in Hex.
  assert (mk_state (queue s) (counter s) None (workers s) (mgr s)
            (total_jobs s) (bar s) (stdout s) (sent s) (counted s)
            (lost s) = s) as Hs by (destruct s; simpl in *; by subst).
  rewrite Hs in Hex.
  eexists _, _. split; [apply quiet_cycles|]. split; [exact Hex|].
  simpl. split_and!; try done. by constructor.
Qed.

(** From the polling loop on. *)
Lemma from_poll s :
  good c s → mgr s = MPoll ∨ mgr s = MBar → completes c s.
Proof.
  intros Hg Hm. destruct Hg as (Hinv & Hsound & Hacc).
  destruct (settle_all c s Hinv) as (tr1 & s1 & Hq1 & He1 & Hl1 & Hm1 & Hd1).
  assert (good c s1) as Hg1 by (by apply (exec_good c tr1 s)).
  apply (completes_after tr1 s s1 Hq1 He1).
  pose proof (rest_settled c s1 Hg1 Hd1) as Hset.
  rewrite <- Hm1 in Hm.
  destruct (handle_queue s1 Hg1 Hm Hl1 Hset)
    as (tr2 & s2 & Hq2 & He2 & Hm2 & Hl2 & Hqu2 & Hset2).
  assert (good c s2) as Hg2 by (by apply (exec_good c tr2 s1)).
  apply (completes_after tr2 s1 s2 Hq2 He2).
  rewrite <- Hm2 in Hm.
  (* one more reading of the bar, if the manager is there *)
  assert (∃ s3, exec c (match mgr s2 with MBar => [Mgr] | _ => [] end) s2
                = Some s3 ∧ mgr s3 = MPoll ∧ lock s3 = None
                ∧ queue s3 = [] ∧ workers s3 = workers s2)
    as (s3 & He3 & Hm3 & Hl3 & Hqu3 & Hw3).
  { destruct Hm as [E|E]; rewrite E.
    - by exists s2.
    - eexists. split; [simpl; unfold mstep; by rewrite E, Hl2|]. done. }
  assert (quiet (match mgr s2 with MBar => [Mgr] | _ => [] end)) as Hq3
    by (destruct (mgr s2); try constructor; try done; constructor).
  assert (good c s3) as Hg3 by (by apply (exec_good c _ s2 s3 Hg2 Hq3)).
  apply (completes_after _ s2 s3 Hq3 He3).
  destruct Hg3 as (Hinv3 & [Hlost3 _] & _).
  destruct (inv_conserved _ _ Hinv3) as [Htot Hperm]; [by rewrite Hm3|].
  rewrite Hqu3, Hw3, (inflight_waiting _ Hset2), Hlost3 in Hperm.
  simpl in Hperm. rewrite app_nil_r in Hperm.
  apply Permutation_length in Hperm.
  rewrite (somes_all _ jobs_some) in Hperm.
  assert (counter s3 = total_jobs s3) as Hc.
  { rewrite (inv_counter _ _ Hinv3), Hperm, Htot.
    apply wrap32_small. unfold INT_MIN. lia. }
  assert (exec c [Mgr] s3 = Some (set_mgr MBarFinal s3)) as He4.
  { simpl. unfold mstep. rewrite Hm3, Hl3, Hc, Z.ltb_irrefl. done. }
  apply (completes_after [Mgr] s3 _ (quiet_mgr 1) He4).
  apply from_final; [|done].
  apply (exec_good c [Mgr] s3); [|apply (quiet_mgr 1)|done].
  split_and!; [done| |]; by destruct (exec_good c _ s2 s3 Hg2 Hq3 He3) as (?&?&?).
Qed.

(** From [start_workers] on. *)
Lemma from_start : ∀ d s i,
  good c s → mgr s = MStart i → (Z.to_nat (num_workers c) - i = d)%nat →
  completes c s.
Proof.
  induction d as [|d IH]; intros s i Hg Hm Hd.
  - assert (exec c [Mgr] s = Some (set_mgr MPoll s)) as He.
    { simpl. unfold mstep. rewrite Hm.
      destruct (Nat.ltb_spec i (Z.to_nat (num_workers c))); [lia|done]. }
    apply (completes_after [Mgr] s _ (quiet_mgr 1) He).
    apply from_poll; [|by left].
    by apply (exec_good c [Mgr] s _ Hg (quiet_mgr 1)).
  - assert (∃ s1, exec c [Mgr] s = Some s1 ∧ mgr s1 = MStart (S i))
      as (s1 & He & Hm1).
    { simpl. unfold mstep. rewrite Hm.
      destruct (Nat.ltb_spec i (Z.to_nat (num_workers c))); [|lia].
      by eexists. }
    apply (completes_after [Mgr] s _ (quiet_mgr 1) He).
    apply (IH _ (S i)); [|done|lia].
    by apply (exec_good c [Mgr] s _ Hg (quiet_mgr 1)).
Qed.

(** From anywhere. *)
Lemma good_completes s : good c s → completes c s.
Proof.
  intros Hg. destruct (mgr s) eqn:Hm.
  - assert (∃ s1, exec c [Mgr] s = Some s1
                  ∧ (mgr s1 = MReturned ∨ mgr s1 = MStart 0))
      as (s1 & He & Hm1).
    { simpl. unfold mstep. rewrite Hm.
      destruct (_ =? 0); eexists; split; try done; auto. }
    destruct Hm1 as [Hm1|Hm1].
    + exists [Mgr], s1. split_and!; try done. apply (quiet_mgr 1).
    + apply (completes_after [Mgr] s _ (quiet_mgr 1) He).
      apply (from_start (Z.to_nat (num_workers c) - 0) _ 0%nat); [|done|done].
      by apply (exec_good c [Mgr] s _ Hg (quiet_mgr 1)).
  - by apply (from_start (Z.to_nat (num_workers c) - i) _ i).
  - apply from_poll; auto.
  - apply from_poll; auto.
  - by apply from_final.
  - by apply (from_stop (Z.to_nat (num_workers c) - i) _ i).
  - by apply (from_join _ i).
  - exists [], s. split_and!; try done. constructor.
Qed.

End Completion.

(** Whatever has happened so far, handlers that raised included, as long
    as no queue operation has failed the run can still be brought to its
    return by calls that all succeed: no interleaving of the manager and
    the workers leads into a state from which [run] cannot return.  This
    needs that no job is [None], that the number of jobs fits the 32-bit
    counter, and a worker when there is a job. *)
Theorem run_can_complete c tr s :
  Forall is_Some (jobs c) →
  Z.of_nat (length (jobs c)) ≤ INT_MAX →
  (jobs c ≠ [] → 1 ≤ num_workers c) →
  reach c tr s → Forall (λ l, no_fault l = true) tr →
  completes c s.
Proof.
  intros Hsome Hfit Hw Hr Hnf.
  apply good_completes; [done..|]. by apply (reach_good c tr).
Qed.

(** ** The lock of the counter *)

(** The with block of lines 39-40 is a critical section: a worker is
    inside it exactly when it owns the lock, so two workers are never
    inside together; the owner of the lock is a started worker inside the
    block; and the value a worker is about to store is still one more than
    the counter, which nothing has written since its load. *)
Theorem lock_exclusive c tr s i w :
  reach c tr s → workers s !! i = Some w →
  (holds_lock (pc w) = true ↔ lock s = Some i)
  ∧ (∀ k w', workers s !! k = Some w' →
       holds_lock (pc w) = true → holds_lock (pc w') = true → k = i)
  ∧ (∀ k, lock s = Some k →
       ∃ w', workers s !! k = Some w' ∧ holds_lock (pc w') = true)
  ∧ (∀ j v, pc w = WWrite j v → v = counter s
       ∧ ∃ s', step c (Wk i Ok) s = Some s'
               ∧ counter s' = wrap32 (counter s + 1)).
Proof.
  intros Hr Hw. pose proof (reach_inv c tr s Hr) as Hinv.
  destruct (inv_workers _ _ Hinv i w Hw) as (_ & _ & Hlk & Hv).
  split_and!; [done| | |].
  - intros k w' Hw' H1 H2.
    destruct (inv_workers _ _ Hinv k w' Hw') as (_ & _ & Hlk' & _).
    apply Hlk in H1. apply Hlk' in H2. congruence.
  - intros k Hk. pose proof (inv_lock _ _ Hinv k Hk) as Hlt.
    destruct (lookup_lt_is_Some_2 _ _ Hlt) as [w' Hw'].
    exists w'. split; [done|].
    by apply (inv_workers _ _ Hinv k w' Hw').
  - intros j v Hpc. pose proof (Hv j v Hpc) as ->. split; [done|].
    eexists. split; [simpl; unfold wstep; rewrite Hw; simpl; by rewrite Hpc|].
    done.
Qed.

(** ** What is left on the queue *)

Lemma step_returned c l s s' :
  inv c s → step c l s = Some s' →
  (mgr s = MReturned → sent s = length (workers s)) →
  mgr s' = MReturned → sent s' = length (workers s').
Proof.
  intros Hinv Hstep IH Hm'. destruct l as [|i o]; simpl in Hstep.
  - pose proof (inv_fresh _ _ Hinv) as Hf.
    pose proof (inv_sent _ _ Hinv) as Hs.
    pose proof (inv_nworkers _ _ Hinv) as Hn.
    mstep_cases Hstep; simpl in *; try done; lia.
  - wstep_cases Hstep w Hw; simpl in *; rewrite ?length_insert; auto.
Qed.

Lemma exec_returned c tr s s' :
  inv c s → exec c tr s = Some s' →
  (mgr s = MReturned → sent s = length (workers s)) →
  mgr s' = MReturned → sent s' = length (workers s').
Proof.
  revert s. induction tr as [|l tr IH]; simpl; intros s Hinv H Hs;
    [by simplify_eq|].
  destruct (step c l s) as [s1|] eqn:Hs1; simpl in H; [|done].
  apply (IH s1); [by eapply step_inv|done|].
  by apply (step_returned c l s).
Qed.

Lemma filter_none {A} (P : A → Prop) `{!∀ x, Decision (P x)} (l : list A) :
  Forall (λ x, ¬ P x) l → filter P l = [].
Proof.
  induction 1 as [|x l Hx _ IH]; [done|].
  by rewrite filter_cons, decide_False.
Qed.

(** The workers that never pulled a sentinel. *)
Lemma pulled_ended (ws : list (worker J)) :
  Forall (λ w, sentinels w ≤ 1)%nat ws →
  (pulled ws
   + length (filter (λ w, sentinels w = 0%nat) ws) = length ws)%nat.
Proof.
  unfold pulled. induction 1 as [|w ws Hw _ IH]; simpl; [done|].
  rewrite filter_cons. destruct (decide (sentinels w = 0%nat)); simpl; lia.
Qed.

(** When [run] has returned no job is left on the queue; what is left
    is one sentinel for every worker that was killed before it pulled
    its own, and nothing at all when no queue operation failed. *)
Theorem leftover_sentinels c tr s :
  reach c tr s → mgr s = MReturned →
  queue s
  = replicate (length (filter (λ w, sentinels w = 0%nat) (workers s))) None
  ∧ Forall (λ w, sentinels w = 0%nat → pc w = WDead) (workers s)
  ∧ (Forall (λ l, no_fault l = true) tr → queue s = []).
Proof.
  intros Hr Hm. pose proof (reach_inv c tr s Hr) as Hinv.
  pose proof (reach_accounted c tr s Hr) as Ha.
  destruct (past_quiet c s Hinv) as (Hq & _ & _ & _ & Hsome);
    [by rewrite Hm|].
  assert (sent s = length (workers s)) as Hsent.
  { apply (exec_returned c tr init s); [apply init_inv|done| |done].
    done. }
  pose proof (inv_joined _ _ Hinv) as Hj. rewrite Hm in Hj. simpl in Hj.
  assert (Forall (λ w, (sentinels w ≤ 1)%nat
                       ∧ (sentinels w = 0%nat → pc w = WDead)) (workers s))
    as Hws.
  { apply Forall_lookup. intros k w Hw.
    destruct (inv_workers _ _ Hinv k w Hw) as (_ & Hs & _).
    specialize (Hj k w Hw). unfold terminated in Hj.
    destruct (pc w); try done; split; try done; lia. }
  apply Forall_and in Hws as [Hle Hdead].
  unfold accounted in Ha. rewrite Hm, (nones_all_some _ Hsome) in Ha.
  pose proof (pulled_ended _ Hle) as Hp.
  assert (nones (queue s)
          = length (filter (λ w, sentinels w = 0%nat) (workers s))) as Hn
    by lia.
  split_and!; [|done|].
  - rewrite <- Hn. by apply somes_nil.
  - intros Hnf.
    destruct (exec_sound c tr init s Hnf Hr) as [_ Hnd]; [by split|].
    rewrite (somes_nil _ Hq).
    assert (filter (λ w, sentinels w = 0%nat) (workers s) = []) as Hnil.
    { apply filter_none. apply Forall_lookup. intros k w Hw H0.
      rewrite Forall_lookup in Hdead, Hnd.
      by apply (Hnd k w Hw), (Hdead k w Hw). }
    rewrite Hn, Hnil. done.
Qed.

(** ** A failed [put] *)

Lemma step_lost c l s s' :
  step c l s = Some s' → lost s ≠ [] → lost s' ≠ [].
Proof.
  destruct l as [|i o]; simpl; intros Hstep Hl.
  - mstep_cases Hstep; done.
  - wstep_cases Hstep w Hw; simpl; try done.
    all: by intros [? _]%app_eq_nil.
Qed.

Lemma exec_lost c tr s s' :
  exec c tr s = Some s' → lost s ≠ [] → lost s' ≠ [].
Proof.
  revert s. induction tr as [|l tr IH]; simpl; intros s H Hl;
    [by simplify_eq|].
  destruct (step c l s) as [s1|] eqn:Hs1; simpl in H; [|done].
  eauto using step_lost.
Qed.

(** The counter stays below the total as long as some job is not counted. *)
Lemma counter_below c s :
  inv c s → mgr s ≠ MCreate →
  (length (counted s) < length (somes (jobs c)))%nat →
  counter s < total_jobs s.
Proof.
  intros Hinv Hne Hlt.
  destruct (inv_conserved _ _ Hinv Hne) as [Htot _].
  rewrite (inv_counter _ _ Hinv), Htot.
  pose proof (somes_length (jobs c)) as Hsl.
  destruct (Z_le_gt_dec (Z.of_nat (length (counted s))) INT_MAX) as [Hle|Hgt].
  - rewrite wrap32_small by (unfold INT_MIN; lia). lia.
  - pose proof (wrap32_range (Z.of_nat (length (counted s)))). lia.
Qed.

(** When the [put] of line 43 fails, the job the worker held is gone for
    good: it is never counted, the counter stays below [total_jobs] and
    the manager never leaves the polling loop, so [run] never returns,
    whatever happens afterwards. *)
Theorem failed_put_blocks c tr s i w j tr' s' :
  reach c tr s → workers s !! i = Some w → pc w = WReput j →
  exec c (Wk i Fault :: tr') s = Some s' →
  lost s' ≠ [] ∧ past_poll (mgr s') = false ∧ mgr s' ≠ MReturned
  ∧ counter s' < total_jobs s'.
Proof.
  intros Hr Hw Hpc He.
  assert (reach c (tr ++ Wk i Fault :: tr') s') as Hr'
    by (by apply (reach_app c tr _ s)).
  pose proof (reach_inv _ _ _ Hr') as Hinv'.
  assert (lost s' ≠ []) as Hl.
  { simpl in He. unfold wstep in He. rewrite Hw in He. simpl in He.
    rewrite Hpc in He. simpl in He.
    apply (exec_lost c tr' _ s' He). simpl. by intros [_ ?]%app_eq_nil. }
  assert (past_poll (mgr s') = false) as Hp.
  { destruct (past_poll (mgr s')) eqn:E; [|done].
    by destruct (past_quiet c s' Hinv' E) as (_ & _ & ? & _). }
  split_and!; [done|done|by intros E; rewrite E in Hp|].
  assert (mgr s' ≠ MCreate) as Hne.
  { intros E. by destruct (inv_fresh _ _ Hinv' E) as (_ & _ & _ & ? & _). }
  apply (counter_below c s' Hinv' Hne).
  destruct (inv_conserved _ _ Hinv' Hne) as [_ Hperm].
  apply Permutation_length in Hperm. rewrite !length_app in Hperm.
  destruct (lost s'); [done|]. simpl in Hperm. lia.
Qed.

(** ** The progress bar *)

Lemma step_bar c l s s' :
  inv c s → step c l s = Some s' → bar_ok s → bar_ok s'.
Proof.
  intros Hinv Hstep Hb. unfold bar_ok in *.
  destruct l as [|i o]; simpl in Hstep.
  - pose proof (inv_fresh _ _ Hinv) as Hf.
    pose proof (inv_counter _ _ Hinv) as Hc.
    mstep_cases Hstep; simpl in *; try done.
    + destruct (Hf eq_refl) as (_ & _ & _ & _ & Ht & _). lia.
    + exists 0%nat. split; [lia|]. by rewrite Hb.
    + exists (length (counted s)). split; [lia|]. rewrite <- Hc. lia.
    + lia.
  - wstep_cases Hstep w Hw; simpl in *; try done.
    all: destruct (mgr s); try done.
    all: destruct Hb as (k & Hk & Hb); exists k; rewrite length_app;
      split; [lia|done].
Qed.

Lemma exec_bar c tr s s' :
  inv c s → exec c tr s = Some s' → bar_ok s → bar_ok s'.
Proof.
  revert s. induction tr as [|l tr IH]; simpl; intros s Hinv H Hb;
    [by simplify_eq|].
  destruct (step c l s) as [s1|] eqn:Hs1; simpl in H; [|done].
  eauto using step_bar, step_inv.
Qed.

Lemma counted_le c s :
  inv c s → (length (counted s) ≤ length (jobs c))%nat.
Proof.
  intros Hinv.
  assert (mgr s = MCreate ∨ mgr s ≠ MCreate) as [E|Hne]
    by (destruct (mgr s); auto).
  - destruct (inv_fresh _ _ Hinv E) as (_ & _ & -> & _). simpl. lia.
  - destruct (inv_conserved _ _ Hinv Hne) as [_ Hperm].
    apply Permutation_length in Hperm. rewrite !length_app in Hperm.
    pose proof (somes_length (jobs c)). lia.
Qed.

(** When the number of jobs fits the counter, the bar is never ahead of
    the counter and the counter never ahead of the total; no call of
    [bar()] moves the bar back (the arguments of lines 100 and 101 are
    never negative); and when [run] has returned the bar stands at
    [total_jobs]. *)
Theorem progress_bar c tr s :
  reach c tr s → Z.of_nat (length (jobs c)) ≤ INT_MAX →
  0 ≤ bar s ≤ counter s ∧ counter s ≤ total_jobs s
  ∧ (∀ s', step c Mgr s = Some s' →
       bar s ≤ bar s' ∧ 0 ≤ bar s' - bar s ≤ total_jobs s - bar s)
  ∧ (mgr s = MReturned → bar s = total_jobs s).
Proof.
  intros Hr Hfit. pose proof (reach_inv _ _ _ Hr) as Hinv.
  assert (bar_ok s) as Hb
    by (apply (exec_bar c tr init s); [apply init_inv|done|done]).
  pose proof (counted_le c s Hinv) as Hle.
  assert (counter s = Z.of_nat (length (counted s))) as Hc.
  { rewrite (inv_counter _ _ Hinv). apply wrap32_small.
    unfold INT_MIN. lia. }
  assert (counter s ≤ total_jobs s) as Hct.
  { assert (mgr s = MCreate ∨ mgr s ≠ MCreate) as [E|Hne]
      by (destruct (mgr s); auto).
    - destruct (inv_fresh _ _ Hinv E) as (_ & _ & Hcd & _ & Ht & _).
      rewrite Hc, Hcd, Ht. done.
    - destruct (inv_conserved _ _ Hinv Hne) as [-> _]. lia. }
  assert (0 ≤ bar s ≤ counter s) as Hbc.
  { unfold bar_ok in Hb. pose proof (inv_past _ _ Hinv) as Hp.
    destruct (mgr s) eqn:Hm; simpl in Hp.
    1: lia.
    1-4: destruct Hb as (k & Hk & ->);
      rewrite wrap32_small by (unfold INT_MIN; lia); lia.
    all: destruct (Hp eq_refl) as [Hp1 _].
    1-2: destruct (inv_conserved _ _ Hinv) as [Ht _]; [by rewrite Hm|]; lia.
    assert (jobs c = [] ∨ jobs c ≠ []) as [E|E]
      by (destruct (jobs c); auto).
    - rewrite E in Hp1. simpl in Hp1.
      destruct (inv_conserved _ _ Hinv) as [Ht _]; [by rewrite Hm|].
      rewrite E in Ht. simpl in Ht. lia.
    - destruct (inv_conserved _ _ Hinv) as [Ht _]; [by rewrite Hm|]. lia. }
  split_and!; [lia|lia|done| |].
  - intros s' Hs'. simpl in Hs'.
    mstep_cases Hs'; simpl in *; lia.
  - intros Hm. unfold bar_ok in Hb. by rewrite Hm in Hb.
Qed.

(** ** Handlers that fail every time *)

Lemma exec_with_exec h c tr s s' :
  exec_with h c tr s = Some s' → exec c tr s = Some s'.
Proof.
  revert s. induction tr as [|l tr IH]; simpl; intros s H; [done|].
  destruct (obeys h l s); [|done].
  destruct (step c l s) as [s1|]; simpl in *; [|done]. by apply IH.
Qed.

Lemma step_passed h c l s s' :
  obeys h l s = true → step c l s = Some s' → passed h s → passed h s'.
Proof.
  intros Ho Hstep [Hc Hw]. unfold passed.
  destruct l as [|i o]; simpl in Hstep.
  - mstep_cases Hstep; simpl; split; try done.
    apply Forall_app; split; [done|]. by repeat constructor.
  - assert (∀ w j, workers s !! i = Some w → pc w = WProc j → o = h j)
      as Hobey.
    { intros w j Hw' Hpc. simpl in Ho. rewrite Hw', Hpc in Ho.
      by apply bool_decide_eq_true in Ho. }
    clear Ho.
    wstep_cases Hstep w Hw'; simpl;
      (split; [|apply Forall_insert; [done|]]); try done;
      unfold handled; simpl; try (by constructor).
    all: pose proof (Forall_lookup_1 _ _ _ _ Hw Hw') as Hh;
      unfold handled in Hh.
    all: repeat match goal with
                | H : pc ?x = _ |- _ =>
                    rewrite H in Hh; try pose proof (Hobey _ _ eq_refl H)
                end; simpl in *.
    all: try (apply Forall_app; split; [done|]).
    all: try done.
    all: repeat constructor; try done.
    all: by apply Forall_cons in Hh as [? _].
Qed.

Lemma exec_passed h c tr s s' :
  exec_with h c tr s = Some s' → passed h s → passed h s'.
Proof.
  revert s. induction tr as [|l tr IH]; simpl; intros s H Hp;
    [by simplify_eq|].
  destruct (obeys h l s) eqn:Ho; [|done].
  destruct (step c l s) as [s1|] eqn:Hs1; simpl in H; [|done].
  eauto using step_passed.
Qed.

Lemma submseteq_missing {A} (l1 l2 : list A) x :
  l1 ⊆+ l2 → x ∈ l2 → x ∉ l1 → (length l1 < length l2)%nat.
Proof.
  intros Hsub Hin Hnin.
  apply elem_of_Permutation in Hin as [l2' Hl2].
  rewrite Hl2 in Hsub.
  apply submseteq_cons_r in Hsub as [Hsub|(l' & Hl' & _)].
  - apply submseteq_length in Hsub.
    apply Permutation_length in Hl2. simpl in Hl2. lia.
  - exfalso. apply Hnin. rewrite Hl'. by left.
Qed.

Lemma elem_of_somes (q : list (option J)) j : Some j ∈ q → j ∈ somes q.
Proof.
  intros H. unfold somes. apply list_elem_of_omap. by exists (Some j).
Qed.

(** When [process_job] has the same outcome at every attempt on a job,
    only jobs on which it returns are ever counted.  So one job on which
    it raises keeps the counter below [total_jobs] for ever: the manager
    never leaves the polling loop and [run] never returns.  With the
    [process_job] of [BaseWorker] itself, which always raises, the counter
    stays 0. *)
Theorem failing_job_blocks h c tr s :
  exec_with h c tr init = Some s →
  reach c tr s
  ∧ Forall (λ j, h j = Ok) (counted s)
  ∧ (∀ j, Some j ∈ jobs c → h j ≠ Ok →
       j ∉ counted s ∧ past_poll (mgr s) = false ∧ mgr s ≠ MReturned
       ∧ (mgr s ≠ MCreate → counter s < total_jobs s))
  ∧ ((∀ j, h j = process_job j) → counted s = [] ∧ counter s = 0).
Proof.
  intros He. pose proof (exec_with_exec h c tr init s He) as Hr.
  pose proof (reach_inv c tr s Hr) as Hinv.
  destruct (exec_passed h c tr init s He) as [Hc _];
    [split; constructor|].
  split_and!; [done|done| |].
  - intros j Hj Hh.
    assert (j ∉ counted s) as Hnin.
    { intros Hin. rewrite Forall_forall in Hc. by apply Hh, Hc. }
    assert (past_poll (mgr s) = false) as Hp.
    { destruct (past_poll (mgr s)) eqn:E; [|done].
      destruct (past_quiet c s Hinv E) as (_ & _ & _ & Hperm & _).
      exfalso. apply Hnin. rewrite Hperm. by apply elem_of_somes. }
    split_and!; [done|done|by intros E; rewrite E in Hp|].
    intros Hne. apply (counter_below c s Hinv Hne).
    apply (submseteq_missing _ _ j); [|by apply elem_of_somes|done].
    destruct (inv_conserved _ _ Hinv Hne) as [_ Hperm].
    rewrite <- Hperm. solve_submseteq.
  - intros Hall.
    assert (counted s = []) as Hnil.
    { destruct (counted s) as [|j l]; [done|].
      apply Forall_cons in Hc as [Hj _]. by rewrite Hall in Hj. }
    split; [done|]. by rewrite (inv_counter _ _ Hinv), Hnil.
Qed.

(** ** The manager that seeds the weather data *)

Lemma create_jobs_some (ids : list J) : Forall is_Some (create_jobs ids).
Proof. apply Forall_fmap, Forall_forall. intros j _. by eexists. Qed.

Lemma somes_create_jobs (ids : list J) : somes (create_jobs ids) = ids.
Proof.
  unfold somes, create_jobs. induction ids as [|j ids IH]; [done|].
  simpl. f_equal. exact IH.
Qed.

Lemma no_jobs_no_workers c tr s :
  jobs c = [] → reach c tr s → workers s = [].
Proof.
  intros Hj Hr. unfold reach in Hr.
  destruct tr as [|[|i o] tr]; simpl in Hr; [by simplify_eq| |done].
  unfold mstep in Hr. simpl in Hr. rewrite Hj in Hr. simpl in Hr.
  destruct tr as [|[|i o] tr]; simpl in Hr; [by simplify_eq|done|done].
Qed.

(** [seed_weather_data] runs twenty workers whatever the number of
    stations and whatever [CORES] says, and none when there is no station.
    As long as no queue operation has failed it can be brought to its
    return, and when it has returned every station id has been handled and
    counted exactly once. *)
Theorem seed_weather_data_run cores (ids : list J) tr s :
  Z.of_nat (length ids) ≤ INT_MAX →
  reach (seed_weather_data cores ids) tr s →
  (length (workers s) ≤ 20)%nat
  ∧ (past_poll (mgr s) = true → ids ≠ [] → length (workers s) = 20%nat)
  ∧ (ids = [] → workers s = [])
  ∧ (Forall (λ l, no_fault l = true) tr →
     completes (seed_weather_data cores ids) s)
  ∧ (mgr s = MReturned →
     counted s ≡ₚ ids ∧ counter s = Z.of_nat (length ids)).
Proof.
  intros Hfit Hr. set (c := seed_weather_data cores ids) in *.
  pose proof (reach_inv c tr s Hr) as Hinv.
  assert (length (jobs c) = length ids) as Hlen
    by (unfold c, seed_weather_data, create_jobs; simpl; by rewrite length_fmap).
  assert (num_workers c = 20) as Hn by done.
  pose proof (inv_nworkers _ _ Hinv) as Hnw. unfold nworkers_ok in Hnw.
  split_and!.
  - destruct (mgr s); rewrite ?Hn in Hnw; lia.
  - intros Hp Hne. destruct (mgr s); rewrite ?Hn in Hnw; try done; try lia.
    destruct Hnw as [?|[Hj _]]; [lia|].
    apply (f_equal length) in Hj. rewrite Hlen in Hj.
    by destruct ids.
  - intros ->. by apply (no_jobs_no_workers c tr s).
  - intros Hnf. apply good_completes.
    + apply create_jobs_some.
    + rewrite Hlen. done.
    + intros _. rewrite Hn. done.
    + by apply (reach_good c tr).
  - intros Hm.
    destruct (past_quiet c s Hinv) as (_ & _ & _ & Hperm & _);
      [by rewrite Hm|].
    split.
    + rewrite Hperm. unfold c, seed_weather_data. simpl.
      by rewrite somes_create_jobs.
    + rewrite (inv_counter _ _ Hinv).
      apply Permutation_length in Hperm. rewrite Hperm.
      unfold c, seed_weather_data. simpl. rewrite somes_create_jobs.
      apply wrap32_small. unfold INT_MIN. lia.
Qed.

End PoolFacts.

(** * Facts about the shared-memory channel *)

Section ShmFacts.

Import Shm.
Context {D : Type}.
Variable os_refuses : string → bool.
Variable dumps : D → option (list Byte.byte).
Variable loads : list Byte.byte → option D.

Lemma make_filename_free w : segs w !! make_filename w = None.
Proof.
  apply not_elem_of_dom. unfold make_filename. apply is_fresh.
Qed.

Lemma remove_first_head n l : remove_first n (n :: l) = l.
Proof. simpl. by rewrite decide_True. Qed.

(** What [deserialize_from_shared_memory] does on a segment that exists:
    the world is as before, whatever [pickle.loads] made of the bytes. *)
Lemma deserialize_attached w name bs :
  segs w !! name = Some bs →
  deserialize_from_shared_memory loads name w
  = (match loads bs with Some d => inr d | None => inl UnpicklingError end, w).
Proof.
  intros Hs. unfold deserialize_from_shared_memory, bind, shm_attach.
  rewrite Hs. unfold try_finally, bind, buf_read, pickle_loads, shm_close.
  cbn [segs maps]. rewrite Hs. cbn [default].
  change (id bs) with bs.
  destruct (loads bs) as [d|]; unfold ret, raise; cbn [segs maps];
    rewrite remove_first_head; by destruct w.
Qed.

(** ** The copy into the block *)

(** Creating a segment under a name that is accepted and not in use. *)
Lemma shm_create_new name size w :
  size ≠ 0%nat →
  os_refuses (default (make_filename w) name) = false →
  segs w !! default (make_filename w) name = None →
  shm_create os_refuses name size w
  = (inr (default (make_filename w) name),
     mk_world
       (<[default (make_filename w) name:=replicate size Byte.x00]> (segs w))
       (default (make_filename w) name :: maps w)).
Proof.
  intros Hs Hr Hn. unfold shm_create.
  rewrite decide_False by done. cbn zeta. by rewrite Hr, Hn.
Qed.

(** Whatever [shm_create] returns is a new block of [size] zero bytes. *)
Lemma shm_create_inv name size w n w0 :
  shm_create os_refuses name size w = (inr n, w0) →
  size ≠ 0%nat ∧ n = default (make_filename w) name
  ∧ os_refuses n = false ∧ segs w !! n = None
  ∧ w0 = mk_world (<[n:=replicate size Byte.x00]> (segs w)) (n :: maps w).
Proof.
  unfold shm_create. destruct (decide (size = 0%nat)); [done|]. cbn zeta.
  destruct (os_refuses _) eqn:Hr; [done|].
  destruct (segs w !! _) eqn:Hn; [done|]. by intros [= <- <-].
Qed.

(** The slice assignment on a block of [size] bytes: it goes through when
    the block is at least as long as the bytes, and raises otherwise. *)
Lemma buf_write_block n bs old w :
  segs w !! n = Some old →
  buf_write n bs w
  = if decide (length bs ≤ length old)%nat then
      (inr (),
       mk_world (<[n:=bs ++ drop (length bs) old]> (segs w)) (maps w))
    else (inl ValueError, w).
Proof.
  intros Hn. unfold buf_write. rewrite Hn. cbn [default].
  change (id old) with old. rewrite length_take.
  destruct (decide (length bs ≤ length old)%nat) as [Hle|Hgt].
  - rewrite decide_True by lia. do 2 f_equal.
    apply map_eq. intros m. destruct (decide (m = n)) as [->|Hm].
    + by rewrite lookup_alter_eq, lookup_insert_eq, Hn.
    + by rewrite lookup_alter_ne, lookup_insert_ne.
  - by rewrite decide_False by lia.
Qed.

(** [serialize_to_shared_memory], case by case: the copy never raises,
    because the block was created with the length of the bytes. *)
Lemma serialize_cases d name w :
  serialize_to_shared_memory os_refuses dumps d name w
  = match dumps d with
    | None => (inl PicklingError, w)
    | Some bs =>
        if decide (length bs = 0%nat) then (inl ValueError, w)
        else
          let n := default (make_filename w) name in
          if os_refuses n then (inl OSError, w)
          else
            match segs w !! n with
            | Some _ => (inl FileExistsError, w)
            | None =>
                (inr (n, n), mk_world (<[n:=bs]> (segs w)) (n :: maps w))
            end
    end.
Proof.
  unfold serialize_to_shared_memory, bind, pickle_dumps.
  destruct (dumps d) as [bs|]; [|done].
  unfold ret, shm_create.
  destruct (decide (length bs = 0%nat)) as [|Hl]; [done|].
  cbn zeta. destruct (os_refuses _) eqn:Hr; [done|].
  destruct (segs w !! default (make_filename w) name) eqn:Hn; [done|].
  erewrite buf_write_block by (cbn [segs]; apply lookup_insert_eq).
  rewrite length_replicate, decide_True by done. cbn [segs maps].
  rewrite insert_insert_eq.
  rewrite drop_ge by (by rewrite length_replicate). by rewrite app_nil_r.
Qed.

(** C7 (round trip).  When the payload can be pickled and the name is
    accepted by the operating system and not in use (a name the library
    generates is both), publishing creates a block of exactly as many zero
    bytes as the pickle has, copies the pickled bytes over them, and
    returns the name of the segment; its size is the length of the pickle
    and its content is the pickle; and fetching by that name returns the
    payload and leaves the world as it was after publishing.  The size is
    exactly right: on a block created shorter the copy raises
    [ValueError], and a block created longer keeps zero bytes after the
    pickle.  [pickle.loads] is assumed to invert [pickle.dumps]. *)
Theorem shm_roundtrip w d name bs :
  (∀ d bs, dumps d = Some bs → loads bs = Some d) →
  dumps d = Some bs → bs ≠ [] →
  os_refuses (default (make_filename w) name) = false →
  (∀ n, name = Some n → segs w !! n = None) →
  ∃ n w1,
    serialize_to_shared_memory os_refuses dumps d name w = (inr (n, n), w1)
    ∧ n = default (make_filename w) name
    ∧ shm_create os_refuses name (length bs) w
      = (inr n,
         mk_world (<[n:=replicate (length bs) Byte.x00]> (segs w))
           (n :: maps w))
    ∧ segs w1 = <[n:=bs]> (segs w)
    ∧ (length <$> segs w1 !! n) = Some (length bs)
    ∧ maps w1 = n :: maps w
    ∧ deserialize_from_shared_memory loads n w1 = (inr d, w1)
    ∧ (∀ size w0, shm_create os_refuses name size w = (inr n, w0) →
         ((size < length bs)%nat →
          buf_write n bs w0 = (inl ValueError, w0))
         ∧ ((length bs < size)%nat →
            ∃ w', buf_write n bs w0 = (inr (), w')
              ∧ segs w' !! n
                = Some (bs ++ replicate (size - length bs) Byte.x00))).
Proof.
  intros Hinv Hd Hne Hacc Hfree.
  set (n := default (make_filename w) name) in *.
  assert (segs w !! n = None) as Hn.
  { unfold n. destruct name as [m|]; simpl; [by apply Hfree|].
    apply make_filename_free. }
  assert (length bs ≠ 0%nat) as Hl by (by destruct bs).
  exists n, (mk_world (<[n:=bs]> (segs w)) (n :: maps w)).
  split_and!; try done.
  - rewrite serialize_cases, Hd. rewrite decide_False by done.
    cbn zeta. fold n. by rewrite Hacc, Hn.
  - by apply shm_create_new.
  - cbn [segs]. by rewrite lookup_insert_eq.
  - erewrite deserialize_attached by (cbn [segs]; apply lookup_insert_eq).
    by rewrite (Hinv d bs Hd).
  - intros size w0 Hc.
    destruct (shm_create_inv _ _ _ _ _ Hc) as (_ & _ & _ & _ & ->).
    split; intros Hsz.
    + erewrite buf_write_block by (cbn [segs]; apply lookup_insert_eq).
      rewrite length_replicate. by rewrite decide_False by lia.
    + erewrite buf_write_block by (cbn [segs]; apply lookup_insert_eq).
      rewrite length_replicate, decide_True by lia.
      eexists. split; [done|]. cbn [segs].
      rewrite lookup_insert_eq. by rewrite drop_replicate.
Qed.


(** ** Publishing *)




End ShmFacts.

(** * Facts about rounding to the hour *)

Section TimeFacts.

Import Time.
Context {TZ : Type}.
Implicit Types t r : datetime TZ.

(** [get_rounded_hour], case by case. *)
Lemma get_rounded_hour_cases t :
  valid t →
  get_rounded_hour t
  = if minute t <? 30 then
      Some (mk_datetime (ordinal t) (hour t) 0 0 0 (tzinfo t) false)
    else if hour t <? 23 then
      Some (mk_datetime (ordinal t) (hour t + 1) 0 0 0 (tzinfo t) false)
    else if ordinal t <? MAXORDINAL then
      Some (mk_datetime (ordinal t + 1) 0 0 0 0 (tzinfo t) false)
    else None.
Proof.
  intros (Ho & Hh & Hm & Hs & Hu). unfold MAXORDINAL in *.
  unfold get_rounded_hour, datetime_add, timedelta_add, new_timedelta,
    replace, MAXORDINAL.
  cbn [ordinal hour minute second microsecond tzinfo fold
       days seconds microseconds].
  assert (minute t / 30 = if minute t <? 30 then 0 else 1) as ->.
  { destruct (Z.ltb_spec (minute t) 30); Z.div_mod_to_equations; lia. }
  generalize dependent (tzinfo t). generalize dependent (minute t).
  generalize dependent (hour t). generalize dependent (ordinal t).
  intros o Ho h Hh m Hm tz.
  destruct (Z.ltb_spec m 30) as [Hlt|Hge];
    [|destruct (Z.ltb_spec h 23) as [Hh23|Hh23];
      [|destruct (Z.ltb_spec o 3652059) as [Ho9|Ho9]]].
  all: match goal with
       | |- (if (0 <? ?E) && _ then _ else _) = _ =>
           assert (E = if (m <? 30) || (h <? 23) then o else o + 1) as HE;
           [destruct (Z.ltb_spec m 30), (Z.ltb_spec h 23); simpl;
            try lia; Z.div_mod_to_equations; lia|]
       end.
  all: match type of HE with ?E = _ => generalize dependent E end.
  all: intros E HE; destruct (Z.ltb_spec m 30), (Z.ltb_spec h 23);
    try lia; simpl in HE; subst E.
  all: destruct (Z.ltb_spec 0 o), (Z.leb_spec o 3652059),
         (Z.ltb_spec 0 (o + 1)), (Z.leb_spec (o + 1) 3652059);
    try lia; simpl; try done.
  all: f_equal; f_equal; Z.div_mod_to_equations; lia.
Qed.

(** [get_rounded_hour] returns the nearest full hour, the later one when
    two are equally near: the result is a valid [datetime] on the hour,
    with the [tzinfo] of the argument and [fold=0]; it lies less than half
    an hour before the argument and at most half an hour after it, so a
    timestamp exactly on the half hour goes up.  It raises
    [OverflowError] exactly in the last half hour of 9999-12-31. *)
Theorem rounded_hour_nearest t :
  valid t →
  (get_rounded_hour t = None
   ↔ ordinal t = MAXORDINAL ∧ hour t = 23 ∧ 30 ≤ minute t)
  ∧ (∀ r, get_rounded_hour t = Some r →
       valid r ∧ minute r = 0 ∧ second r = 0 ∧ microsecond r = 0
       ∧ tzinfo r = tzinfo t ∧ fold r = false
       ∧ stamp t - 1800000000 < stamp r ≤ stamp t + 1800000000
       ∧ (stamp r = stamp t + 1800000000
          ↔ minute t = 30 ∧ second t = 0 ∧ microsecond t = 0)).
Proof.
  intros Hv. rewrite (get_rounded_hour_cases t Hv).
  destruct Hv as (Ho & Hh & Hm & Hs & Hu). unfold MAXORDINAL in *.
  destruct (Z.ltb_spec (minute t) 30) as [Hlt|Hge];
    [|destruct (Z.ltb_spec (hour t) 23) as [Hh23|Hh23];
      [|destruct (Z.ltb_spec (ordinal t) 3652059) as [Ho9|Ho9]]].
  all: split;
    [split; [intros Hn; try done; lia|intros (? & ? & ?); try done; lia]|].
  all: intros r Hr; try done; injection Hr as <-.
  all: unfold valid, stamp, MAXORDINAL; simpl; split_and!; try done;
    try lia.
  all: split; [intros ?; lia|intros (? & ? & ?); lia].
Qed.

(** Rounding is idempotent.  It keeps the order of two timestamps that
    are both naive or have the same [tzinfo], which is the order in which
    Python compares them, field by field on the wall clock; and two such
    timestamps that round to the same point of the wall clock get the
    same result.  Across different zones the wall clocks give no order of
    the instants, and nothing is said. *)
Theorem rounded_hour_stable t1 t2 r1 r2 :
  valid t1 → valid t2 →
  get_rounded_hour t1 = Some r1 → get_rounded_hour t2 = Some r2 →
  get_rounded_hour r1 = Some r1
  ∧ (tzinfo t1 = tzinfo t2 →
     tzinfo r1 = tzinfo r2
     ∧ (stamp t1 ≤ stamp t2 → stamp r1 ≤ stamp r2)
     ∧ (stamp r1 = stamp r2 → r1 = r2)).
Proof.
  intros Hv1 Hv2 H1 H2.
  assert (valid r1 ∧ minute r1 = 0 ∧ second r1 = 0 ∧ microsecond r1 = 0
          ∧ fold r1 = false) as (Hvr & Hm & Hs & Hu & Hf).
  { rewrite (get_rounded_hour_cases t1 Hv1) in H1.
    destruct Hv1 as (Ho & Hh & Hm & Hs & Hu). unfold MAXORDINAL in *.
    repeat case_match; simplify_eq; unfold valid, MAXORDINAL; simpl;
      split_and!; try done; lia. }
  split.
  - rewrite (get_rounded_hour_cases r1 Hvr), Hm. simpl.
    destruct r1; simpl in *. by subst.
  - intros Htz.
    rewrite (get_rounded_hour_cases t1 Hv1) in H1.
    rewrite (get_rounded_hour_cases t2 Hv2) in H2.
    destruct Hv1 as (Ho1 & Hh1 & Hm1 & Hs1 & Hu1).
    destruct Hv2 as (Ho2 & Hh2 & Hm2 & Hs2 & Hu2).
    unfold MAXORDINAL in *. unfold stamp.
    repeat case_match; simplify_eq; simpl; split_and!; try done; try lia.
    all: intros He; rewrite Htz; f_equal; lia.
Qed.

End TimeFacts.

(** * Facts about the weather at a point *)

Section WeatherFacts.

Import Time Weather.
Context {TZ X V : Type}.
Variable nearest : string → datetime TZ → X → X → option V.
Variable kriged : string → datetime TZ → string → X → X → option V.

(** Snow depth is read at 06:00 of the day of the timestamp, except from
    23:30 on, when the rounding has moved to the next day and the value
    of the next day is read; in the last half hour of 9999-12-31 the call
    raises [OverflowError], for every parameter, known or not. *)
Theorem snow_depth_day (t : datetime TZ) x y :
  valid t →
  (∀ p, get_weather_at_point nearest kriged p t x y = None
        ↔ ordinal t = MAXORDINAL ∧ hour t = 23 ∧ 30 ≤ minute t)
  ∧ (hour t < 23 ∨ minute t < 30 →
     get_weather_at_point nearest kriged "snow_depth" t x y
     = Some (kriged "snow_depth"
               (mk_datetime (ordinal t) 6 0 0 0 (tzinfo t) false)
               "regression" x y))
  ∧ (hour t = 23 → 30 ≤ minute t → ordinal t < MAXORDINAL →
     get_weather_at_point nearest kriged "snow_depth" t x y
     = Some (kriged "snow_depth"
               (mk_datetime (ordinal t + 1) 6 0 0 0 (tzinfo t) false)
               "regression" x y)).
Proof.
  intros Hv. unfold get_weather_at_point.
  rewrite (get_rounded_hour_cases t Hv).
  destruct Hv as (Ho & Hh & Hm & Hs & Hu). unfold MAXORDINAL in *.
  split_and!.
  - intros p.
    destruct (Z.ltb_spec (minute t) 30) as [Hlt|Hge];
      [|destruct (Z.ltb_spec (hour t) 23) as [Hh23|Hh23];
        [|destruct (Z.ltb_spec (ordinal t) 3652059) as [Ho9|Ho9]]];
      simpl.
    1-3: split; [repeat case_match; done|intros (? & ? & ?); lia].
    split; [intros _; lia|done].
  - intros Hb.
    destruct (Z.ltb_spec (minute t) 30) as [Hlt|Hge];
      [|destruct (Z.ltb_spec (hour t) 23) as [Hh23|Hh23]; [|lia]];
      simpl; unfold replace; simpl; done.
  - intros H23 H30 Ho9.
    destruct (Z.ltb_spec (minute t) 30) as [Hlt|Hge]; [lia|].
    destruct (Z.ltb_spec (hour t) 23) as [Hh23|Hh23]; [lia|].
    destruct (Z.ltb_spec (ordinal t) 3652059) as [Ho9'|Ho9']; [|lia].
    simpl. unfold replace. simpl. done.
Qed.

End WeatherFacts.

(** * Facts about seeding the weather stations *)

Section StationFacts.

Import Station.
Context {Stn Row : Type}.
Variable key : Stn → string.
Variable links : Stn → list link.
Variable periods_at : option string → exn + list period.
Variable data_href_at : string → exn + string.
Variable stations_at : Z → exn + list Stn.
Variable prepare : Stn → string → exn + (string → Row).

Notation build := (build_weather_station_data key links periods_at
                     data_href_at prepare).
Notation get_url := (get_station_data_url key links periods_at data_href_at).
Notation fetch := (fetch_weather_stations key links periods_at data_href_at
                     stations_at prepare).
Notation loop := (fetch_loop key links periods_at data_href_at prepare).
Notation seed := (seed_weather_stations key links periods_at data_href_at
                    stations_at prepare).
Notation sloop := (seed_loop key links periods_at data_href_at
                     stations_at prepare).
Notation rows_of := (built key links periods_at data_href_at prepare).
Notation reports_of := (reports key links periods_at data_href_at prepare).
Notation skip := (skippable key links periods_at data_href_at prepare).

Lemma scan_periods_app u ps1 ps2 :
  scan_periods u (ps1 ++ ps2) = scan_periods (scan_periods u ps1) ps2.
Proof.
  revert u. induction ps1 as [|p ps1 IH]; intros u; simpl; [done|].
  repeat case_match; apply IH.
Qed.

Lemma scan_periods_silent u ps : Forall silent ps → scan_periods u ps = u.
Proof.
  induction 1 as [|p ps Hp _ IH]; simpl; [done|].
  destruct (decide _) as [E|]; [|done]. by rewrite (Hp E).
Qed.

Lemma scan_periods_some u ps h :
  scan_periods u ps = Some h →
  (u = Some h ∧ Forall silent ps)
  ∨ ∃ ps1 p ps2, ps = ps1 ++ p :: ps2
      ∧ period_key p = "corrected-archive"%string
      ∧ first_json (period_link p) = Some h ∧ Forall silent ps2.
Proof.
  revert u. induction ps as [|p ps IH]; intros u; simpl.
  - intros ->. left. by split.
  - destruct (decide (period_key p = "corrected-archive"%string)) as [E|E].
    + destruct (first_json (period_link p)) as [h'|] eqn:Hj; intros H.
      * destruct (IH _ H) as [[[= ->] Hs]|(ps1 & q & ps2 & -> & ? & ? & ?)].
        -- right. by exists [], p, ps.
        -- right. by exists (p :: ps1), q, ps2.
      * destruct (IH _ H) as [[-> Hs]|(ps1 & q & ps2 & -> & ? & ? & ?)].
        -- left. split; [done|]. constructor; [|done]. by intros _.
        -- right. by exists (p :: ps1), q, ps2.
    + intros H.
      destruct (IH _ H) as [[-> Hs]|(ps1 & q & ps2 & -> & ? & ? & ?)].
      * left. split; [done|]. constructor; [|done]. by intros ?.
      * right. by exists (p :: ps1), q, ps2.
Qed.

(** The data URL of a station is looked up in the last corrected-archive
    period that has a JSON link, at the first such link: later periods
    of that kind without a JSON link do not undo the choice.  When no
    corrected-archive period has a JSON link, or the chosen [href] is the
    empty string, [get_station_data_url] raises [ValueError] and asks the
    network nothing more. *)
Theorem station_data_url (station : Stn) periods :
  periods_at (first_json (links station)) = inr periods →
  (Forall silent periods →
   get_url station = inl (ValueError (key station)))
  ∧ (∀ ps1 p ps2 h,
       periods = ps1 ++ p :: ps2 →
       period_key p = "corrected-archive"%string →
       first_json (period_link p) = Some h →
       Forall silent ps2 →
       get_url station
       = if decide (h = ""%string) then inl (ValueError (key station))
         else data_href_at h)
  ∧ (∀ url, get_url station = inr url →
       ∃ ps1 p ps2 h,
         periods = ps1 ++ p :: ps2
         ∧ period_key p = "corrected-archive"%string
         ∧ first_json (period_link p) = Some h ∧ h ≠ ""%string
         ∧ Forall silent ps2
         ∧ data_href_at h = inr url).
Proof.
  intros Hp. unfold get_station_data_url. rewrite Hp. split_and!.
  - intros Hs. by rewrite (scan_periods_silent None periods Hs).
  - intros ps1 p ps2 h -> Hk Hj Hs.
    rewrite scan_periods_app. simpl.
    rewrite decide_True by done. rewrite Hj.
    by rewrite (scan_periods_silent _ ps2 Hs).
  - intros url Hu.
    destruct (scan_periods None periods) as [h|] eqn:Hsc; [|done].
    destruct (decide (h = ""%string)) as [|Hne]; [done|].
    destruct (scan_periods_some _ _ _ Hsc)
      as [[? _]|(ps1 & p & ps2 & -> & ? & ? & ?)]; [done|].
    by exists ps1, p, ps2, h.
Qed.


(** ** Fetching and storing *)

Lemma fetch_loop_skippable parameter todo stations w :
  Forall (skip parameter) todo →
  loop parameter todo stations w
  = (inr (stations ++ rows_of parameter todo),
     mk_world (stdout w ++ reports_of parameter todo) (table w)).
Proof.
  intros H. revert stations w.
  induction H as [|st todo Hst _ IH]; intros stations w; simpl.
  - rewrite !app_nil_r. by destruct w.
  - unfold skippable in Hst. unfold built, reports. simpl.
    destruct (build st parameter) as [[e|k|n]|row]; try done.
    + rewrite IH. simpl. by rewrite <- app_assoc.
    + rewrite IH. by rewrite <- app_assoc.
Qed.

Lemma fetch_loop_abort parameter pre st post e stations w :
  Forall (skip parameter) pre →
  build st parameter = inl e → ¬ skip parameter st →
  loop parameter (pre ++ st :: post) stations w
  = (inl e, mk_world (stdout w ++ reports_of parameter pre) (table w)).
Proof.
  intros H Hst Hn. revert stations w.
  induction H as [|st' pre Hst' _ IH]; intros stations w; simpl.
  - unfold skippable in Hn. rewrite Hst in *.
    rewrite app_nil_r. destruct e; try done; by destruct w.
  - unfold skippable in Hst'. unfold reports. simpl.
    destruct (build st' parameter) as [[e'|k|n]|row]; try done.
    all: rewrite IH; simpl; by rewrite <- ?app_assoc.
Qed.

Lemma fetch_loop_table parameter todo stations w :
  table (loop parameter todo stations w).2 = table w.
Proof.
  revert stations w. induction todo as [|st todo IH]; intros stations w;
    simpl; [done|].
  destruct (build st parameter) as [[e|k|n]|row]; try done.
  all: by rewrite IH.
Qed.

Lemma skippable_dec parameter st :
  skip parameter st ∨ ¬ skip parameter st.
Proof.
  unfold skippable. destruct (build st parameter) as [[e|k|n]|row]; auto.
Qed.

Lemma fetch_loop_ok parameter todo stations w rows w' :
  loop parameter todo stations w = (inr rows, w') →
  Forall (skip parameter) todo.
Proof.
  revert stations w. induction todo as [|st todo IH]; intros stations w;
    simpl; [done|].
  intros H. constructor.
  - unfold skippable.
    destruct (build st parameter) as [[e|k|n]|row]; done.
  - destruct (build st parameter) as [[e|k|n]|row]; try done; eauto.
Qed.

Lemma fetch_ok parameter number response w rows w' :
  list_to_map (M := gmap string Z) PARAMETERS !! parameter = Some number →
  stations_at number = inr response →
  fetch parameter w = (inr rows, w') →
  Forall (skip parameter) response ∧ rows = rows_of parameter response.
Proof.
  intros Hp Hs. unfold fetch_weather_stations. rewrite Hp, Hs. intros H.
  destruct (loop parameter response [] w) as [[e|rs] w1] eqn:Hl; [done|].
  pose proof (fetch_loop_ok _ _ _ _ _ _ Hl) as Hok.
  rewrite (fetch_loop_skippable _ _ _ _ Hok) in Hl.
  split; [done|]. by simplify_eq.
Qed.

(** [fetch_weather_stations] keeps, in the order of the response, the
    stations that can be built; a station whose building raises
    [ValueError] (one without a corrected archive, say) is reported and
    left out, and the line printed at the end counts the stations kept.
    Any other exception ends the fetch at that station: the stations built
    so far are dropped and no count is printed. *)
Theorem fetch_skips_value_errors parameter number response w :
  list_to_map (M := gmap string Z) PARAMETERS !! parameter = Some number →
  stations_at number = inr response →
  (Forall (skip parameter) response →
   fetch parameter w
   = (inr (rows_of parameter response),
      mk_world
        (stdout w ++ reports_of parameter response
         ++ [LineProcessed (length (rows_of parameter response)) parameter])
        (table w))
   ∧ (length (rows_of parameter response)
      + length (reports_of parameter response) = length response)%nat)
  ∧ (∀ pre st post e,
       response = pre ++ st :: post →
       Forall (skip parameter) pre →
       build st parameter = inl e → ¬ skip parameter st →
       fetch parameter w
       = (inl e,
          mk_world (stdout w ++ reports_of parameter pre) (table w)))
  ∧ (∀ rows w', fetch parameter w = (inr rows, w') →
       Forall (skip parameter) response ∧ rows = rows_of parameter response).
Proof.
  intros Hp Hs. unfold fetch_weather_stations. rewrite Hp, Hs.
  split_and!.
  - intros Hok. rewrite (fetch_loop_skippable _ _ _ _ Hok). simpl.
    split; [by rewrite <- app_assoc|].
    clear Hs. induction Hok as [|st l Hst _ IH]; [done|].
    unfold built, reports, skippable in *. csimpl.
    destruct (build st parameter) as [[e|k|n]|row]; try done;
      csimpl; lia.
  - intros pre st post e -> Hpre Hst Hn.
    by rewrite (fetch_loop_abort _ _ _ _ _ _ _ Hpre Hst Hn).
  - intros rows w' H. apply (fetch_ok parameter number response w rows w');
      try done.
    unfold fetch_weather_stations. by rewrite Hp, Hs.
Qed.

Lemma fetch_table parameter w :
  table (fetch parameter w).2 = table w.
Proof.
  unfold fetch_weather_stations.
  destruct (_ !! parameter) as [number|]; [|done].
  destruct (stations_at number) as [e|response]; [done|].
  pose proof (fetch_loop_table parameter response [] w) as Ht.
  destruct (loop parameter response [] w) as [[e|rs] w1]; done.
Qed.

Lemma seed_loop_table parameters station_rows w :
  table (sloop parameters station_rows w).2 = table w.
Proof.
  revert station_rows w.
  induction parameters as [|p ps IH]; intros station_rows w; simpl; [done|].
  pose proof (fetch_table p w) as Ht.
  destruct (fetch p w) as [[e|rs] w1]; simpl in *; [done|].
  by rewrite IH.
Qed.

(** [seed_weather_stations] stores all or nothing: when fetching raises
    for any of the four parameters the table is left as it was, also if
    the stations of earlier parameters had been built; and when it
    returns, the rows added are those of [air_temperature], [wind],
    [precipitation] and [snow_depth], in this order, with every station
    that was left out reported, and the last line printed counts them. *)
Theorem seed_all_or_nothing w r w' :
  seed_weather_stations key links periods_at data_href_at stations_at
    prepare w = (r, w') →
  match r with
  | inl _ => table w' = table w
  | inr _ =>
      ∃ s1 s4 s7 s8,
        stations_at 1 = inr s1 ∧ stations_at 4 = inr s4
        ∧ stations_at 7 = inr s7 ∧ stations_at 8 = inr s8
        ∧ Forall (skip "air_temperature") s1 ∧ Forall (skip "wind") s4
        ∧ Forall (skip "precipitation") s7 ∧ Forall (skip "snow_depth") s8
        ∧ let rows :=
            rows_of "air_temperature" s1 ++ rows_of "wind" s4
            ++ rows_of "precipitation" s7 ++ rows_of "snow_depth" s8 in
          table w' = table w ++ rows
          ∧ last (stdout w') = Some (LineSeeded (length rows))
  end.
Proof.
  unfold seed_weather_stations. intros H.
  pose proof (seed_loop_table (PARAMETERS.*1) [] w) as Ht.
  destruct (sloop (PARAMETERS.*1) [] w) as [[e|rows] w1] eqn:Hl;
    simplify_eq; simpl in *; [done|].
  destruct (fetch "air_temperature" w) as [[e|r1] w2] eqn:H1; [done|].
  destruct (fetch "wind" w2) as [[e|r4] w3] eqn:H4; [done|].
  destruct (fetch "precipitation" w3) as [[e|r7] w4] eqn:H7; [done|].
  destruct (fetch "snow_depth" w4) as [[e|r8] w5] eqn:H8; [done|].
  simplify_eq.
  assert (∀ p n v rs v', list_to_map (M := gmap string Z) PARAMETERS !! p
                         = Some n →
            fetch p v = (inr rs, v') →
            ∃ sts, stations_at n = inr sts ∧ Forall (skip p) sts
                   ∧ rs = rows_of p sts) as Hinv.
  { intros p n v rs v' Hp Hf.
    pose proof Hf as Hf'. unfold fetch_weather_stations in Hf'.
    rewrite Hp in Hf'.
    destruct (stations_at n) as [e|sts] eqn:Hs; [done|].
    exists sts. split; [done|].
    by apply (fetch_ok p n sts v rs v'). }
  destruct (Hinv "air_temperature"%string 1 _ _ _ eq_refl H1)
    as (s1 & ? & ? & ->).
  destruct (Hinv "wind"%string 4 _ _ _ eq_refl H4) as (s4 & ? & ? & ->).
  destruct (Hinv "precipitation"%string 7 _ _ _ eq_refl H7)
    as (s7 & ? & ? & ->).
  destruct (Hinv "snow_depth"%string 8 _ _ _ eq_refl H8)
    as (s8 & ? & ? & ->).
  exists s1, s4, s7, s8. split_and!; try done.
  - rewrite Ht. by rewrite <- !app_assoc.
  - rewrite last_snoc. by rewrite <- !app_assoc.
Qed.

End StationFacts.

(** * Facts about seeding the weather data *)

Section WeatherDataFacts.

Import Pool WeatherData.
Context {Stn Rec : Type}.
Variable db_get : Z → option Stn.
Variable status_code : Stn → exn + Z.
Variable parse : Stn → exn + option (list Rec).

(** A station id that is not in the table is done at once: nothing is
    requested or stored and the job counts as handled.  A station whose
    data URL answers with a status other than 200 makes [process_job]
    raise [ConnectionError] and store nothing; as long as the URL keeps
    answering so, the job is retried without end, its id is never counted
    and [seed_weather_data] never returns. *)
Theorem unreachable_station_blocks cores ids id tr s :
  id ∈ ids →
  exec_with (outcome_of db_get status_code parse)
    (seed_weather_data cores ids) tr init = Some s →
  (db_get id = None →
   ∀ weather_data,
     process_job db_get status_code parse id weather_data
     = (inr (), weather_data))
  ∧ (∀ station code,
       db_get id = Some station → status_code station = inr code →
       code ≠ 200 →
       (∀ weather_data,
          process_job db_get status_code parse id weather_data
          = (inl ConnectionError, weather_data))
       ∧ id ∉ counted s ∧ past_poll (mgr s) = false ∧ mgr s ≠ MReturned).
Proof.
  intros Hin He. split.
  - intros Hg wd. unfold process_job. by rewrite Hg.
  - intros station code Hg Hsc Hst.
    assert (∀ wd, process_job db_get status_code parse id wd
                  = (inl ConnectionError, wd)) as Hpj.
    { intros wd. unfold process_job, fetch_weather_station_data.
      rewrite Hg, Hsc. by rewrite decide_True. }
    split; [done|].
    assert (outcome_of db_get status_code parse id = Raise) as Hh
      by (unfold outcome_of; by rewrite Hpj).
    pose proof (exec_with_exec _ _ _ _ _ He) as Hr.
    pose proof (reach_inv _ tr s Hr) as Hinv.
    destruct (exec_passed _ _ _ _ _ He) as [Hc _]; [split; constructor|].
    assert (id ∉ counted s) as Hnin.
    { intros Hc'. rewrite Forall_forall in Hc.
      specialize (Hc id Hc'). by rewrite Hh in Hc. }
    assert (past_poll (mgr s) = false) as Hp.
    { destruct (past_poll (mgr s)) eqn:E; [|done].
      destruct (past_quiet _ s Hinv E) as (_ & _ & _ & Hperm & _).
      exfalso. apply Hnin. rewrite Hperm.
      unfold seed_weather_data. simpl. by rewrite somes_create_jobs. }
    split_and!; [done|done|]. intros E. by rewrite E in Hp.
Qed.

End WeatherDataFacts.

(** * The theorems at concrete runs *)

Section Examples.

Import Pool Scenario.

(** Five jobs and two workers: the counter ends at 5 and both workers
    have ended; and the conditions under which a run returns hold. *)
Lemma run_completion_witness :
  (counter five_final = 5
   ∧ Forall (λ w, terminated w = true) (workers five_final))
  ∧ ∃ tr s, Forall (λ l, no_raise l = true ∧ no_fault l = true) tr
            ∧ reach five tr s ∧ mgr s = MReturned.
Proof.
  split.
  - apply (proj1 (run_completion five) five_schedule five_final);
      reflexivity.
  - apply (proj2 (run_completion five)).
    + repeat constructor; by eexists.
    + vm_compute. discriminate.
    + intros _. vm_compute. discriminate.
Defined.

(** One job whose handler raises twice: counted once when [run] returns. *)
Lemma retry_on_failure_witness :
  (counted flaky_final ⊆+ [7] ∧ counted flaky_final ≡ₚ [7])
  ∧ (∃ s' w', exec flaky [Wk 0 Raise; Wk 0 Ok] flaky_first = Some s'
       ∧ queue s' = queue flaky_first ++ [Some 7]
       ∧ counter s' = counter flaky_first
       ∧ counted s' = counted flaky_first
       ∧ workers s' !! 0%nat = Some w' ∧ pc w' = WGet
       ∧ calls w' = [] ++ [7])
  ∧ ∃ tr s, raises tr = 2%nat ∧ reach flaky tr s ∧ mgr s = MReturned
            ∧ counted s ≡ₚ [7] ∧ counter s = 1.
Proof.
  split; [|split].
  - destruct (proj1 (retry_on_failure flaky) flaky_schedule flaky_final
                eq_refl) as (_ & H2 & _ & H4).
    split; [exact H2|]. apply H4. reflexivity.
  - destruct (proj1 (retry_on_failure flaky)
                [Mgr; Mgr; Mgr; Wk 0 Ok; Wk 0 Ok] flaky_first eq_refl)
      as (H1 & _).
    apply (H1 0%nat (mk_worker (WProc 7) Live [] 0 0) 7); reflexivity.
  - apply (proj2 (retry_on_failure flaky) 2%nat [7]).
    + reflexivity.
    + discriminate.
    + vm_compute. discriminate.
    + vm_compute. discriminate.
Defined.


(** No job: after the one step of [run] nothing has been started. *)
Lemma zero_jobs_witness :
  reach idle_run [Mgr] returned_idle
  ∧ workers (@returned_idle Z) = [] ∧ sent (@returned_idle Z) = 0%nat
  ∧ counter (@returned_idle Z) = 0.
Proof.
  destruct (zero_jobs idle_run eq_refl) as [H1 H2].
  split; [exact H1|].
  destruct (H2 [Mgr] returned_idle H1) as (? & ? & ? & _). done.
Defined.

(** Two workers, one with 3 and one with 2 increments: the counter is 5;
    and the manager's next step does not touch it. *)
Lemma counter_discipline_witness :
  counter five_final = wrap32 (Z.of_nat (3 + 2))
  ∧ length (counted five_final) = 5%nat.
Proof.
  destruct (counter_discipline five five_schedule five_final eq_refl)
    as (_ & H2 & H3 & _).
  split; [exact H2|exact H3].
Defined.

(** C5 as stated fails at the 32-bit boundary: with [2^31] jobs and one
    worker, the store that counts the last job takes the counter from
    2147483647 to -2147483648. *)
Lemma counter_wraps :
  ∃ tr s s', reach overflow tr s ∧ step overflow (Wk 0 Ok) s = Some s'
    ∧ counter s = 2147483647 ∧ counter s' = -2147483648
    ∧ counter s' < counter s
    ∧ Z.of_nat (length (counted s')) = 2147483648.
Proof.
  destruct (overflow_run 0 (Z.to_nat INT_MAX))
    as (tr & s & s' & Hr & Hs & Hc & Hc' & Hl).
  assert (Z.of_nat (Z.to_nat INT_MAX) = INT_MAX) as E
    by (apply Z2Nat.id; discriminate).
  rewrite E in Hc, Hc'.
  change (wrap32 INT_MAX) with 2147483647 in Hc.
  change (wrap32 (INT_MAX + 1)) with (-2147483648) in Hc'.
  exists tr, s, s'.
  split; [exact Hr|]. split; [exact Hs|]. split; [exact Hc|].
  split; [exact Hc'|]. split.
  - rewrite Hc, Hc'. reflexivity.
  - rewrite Hl, Nat2Z.inj_succ, E. reflexivity.
Qed.

(** The worker whose first [get()] failed keeps a live engine. *)
Lemma engine_lifecycle_witness :
  engine (mk_worker (@WDead Z) Live [] 0 0) = Live
  ∧ ∀ tr' s' w', exec flaky tr' crashed = Some s' →
      workers s' !! 0%nat = Some w' → w' = mk_worker WDead Live [] 0 0.
Proof.
  destruct (engine_lifecycle flaky crash_schedule crashed 0
              (mk_worker WDead Live [] 0 0) eq_refl eq_refl)
    as (_ & _ & _ & _ & H5).
  apply H5. reflexivity.
Defined.

(** C6 as stated fails: a worker that has ended because a queue operation
    raised has not released its engine. *)
Lemma engine_leak :
  ∃ w, reach flaky crash_schedule crashed
       ∧ workers crashed !! 0%nat = Some w
       ∧ terminated w = true ∧ engine w = Live ∧ engine w ≠ Disposed.
Proof.
  exists (mk_worker WDead Live [] 0 0). split_and!; try reflexivity.
  discriminate.
Qed.

(** A [None] enqueued as a job ends the worker that pulls it. *)
Lemma none_is_sentinel_witness :
  wstep 0 Raise none_at_head = None
  ∧ ∃ s', exec with_none (shutdown 0) none_at_head = Some s'
      ∧ workers s' !! 0%nat = Some (mk_worker WDone Disposed [] 0 (S 0))
      ∧ queue s' = [Some 3] ∧ counter s' = counter none_at_head
      ∧ counted s' = counted none_at_head
      ∧ mgr s' = mgr none_at_head
      ∧ ∀ k, k ≠ 0%nat → workers s' !! k = workers none_at_head !! k.
Proof.
  apply (none_is_sentinel with_none none_at_head 0
           (mk_worker WGet Live [] 0 0) [Some 3]); reflexivity.
Defined.

(** The default of the [util] variant on a machine with 8 cores. *)
Lemma util_default_workers_witness :
  num_workers (util_manager_init 8 [Some 1] None) = -1
  ∧ ∀ tr s, reach (util_manager_init 8 [Some 1] None) tr s →
      workers s = [] ∧ sent s = 0%nat ∧ counter s = 0
      ∧ ([Some 1] ≠ [] → past_poll (mgr s) = false
           ∧ counter s < Z.of_nat (length [Some 1])).
Proof.
  destruct (util_default_workers 8 [Some 1]) as (H1 & _ & _ & H4 & _).
  split; [exact H1|exact H4].
Defined.

Import Shm.

(** Publishing three bytes under the name job-1 and fetching them. *)
Lemma shm_roundtrip_witness :
  ∃ n w1,
    serialize_to_shared_memory posix_refuses tag_dumps payload
      (Some "job-1"%string) empty_world = (inr (n, n), w1)
    ∧ n = "job-1"%string
    ∧ segs w1 = <[n:=Byte.x80 :: payload]> ∅
    ∧ (length <$> segs w1 !! n) = Some 4%nat
    ∧ maps w1 = [n]
    ∧ deserialize_from_shared_memory tag_loads n w1 = (inr payload, w1)
    ∧ buf_write n (Byte.x80 :: payload)
        (mk_world {[ n := replicate 3 Byte.x00 ]} [n])
      = (inl ValueError, mk_world {[ n := replicate 3 Byte.x00 ]} [n]).
Proof.
  destruct (shm_roundtrip posix_refuses tag_dumps tag_loads empty_world
              payload (Some "job-1"%string) (Byte.x80 :: payload))
    as (n & w1 & H1 & H2 & H3 & H4 & H5 & H6 & H7 & H8).
  - intros d bs [= <-]. reflexivity.
  - reflexivity.
  - discriminate.
  - reflexivity.
  - intros n _. apply lookup_empty.
  - exists n, w1. split_and!; try done.
    apply (H8 3%nat); [|simpl; lia].
    subst n. unfold shm_create. simpl. unfold empty_world. cbn [segs maps].
    rewrite lookup_empty. by rewrite insert_empty.
Defined.


(** ** Further properties *)

(** Five jobs, a raised handler, workers still being started: the run
    can be completed. *)
Lemma run_can_complete_witness : completes five five_midway.
Proof.
  apply (run_can_complete five midway_schedule five_midway).
  - repeat constructor; by eexists.
  - vm_compute. discriminate.
  - intros _. vm_compute. discriminate.
  - reflexivity.
  - repeat constructor.
Defined.

(** Worker 0 inside the with block: it owns the lock and its store will
    write 1. *)
Lemma lock_exclusive_witness :
  lock five_locked = Some 0%nat
  ∧ ∃ s', step five (Wk 0 Ok) five_locked = Some s'
          ∧ counter s' = wrap32 (counter five_locked + 1).
Proof.
  destruct (lock_exclusive five locked_schedule five_locked 0
              (mk_worker (WWrite 1 0) Live [1] 0 0) eq_refl eq_refl)
    as (H1 & _ & _ & H4).
  split; [by apply H1|]. by apply (H4 1 0).
Defined.

(** The sentinel meant for the killed worker 0 stays on the queue. *)
Lemma leftover_sentinels_witness :
  queue orphan_final
  = replicate
      (length (filter (λ w, sentinels w = 0%nat) (workers orphan_final)))
      None
  ∧ queue orphan_final = [None].
Proof.
  destruct (leftover_sentinels pair orphan_schedule orphan_final
              eq_refl eq_refl) as (H1 & _).
  split; [exact H1|reflexivity].
Defined.

(** The only job is lost at [put]: the manager polls for ever. *)
Lemma failed_put_blocks_witness :
  lost flaky_lost ≠ [] ∧ past_poll (mgr flaky_lost) = false
  ∧ mgr flaky_lost ≠ MReturned
  ∧ counter flaky_lost < total_jobs flaky_lost.
Proof.
  apply (failed_put_blocks flaky reput_schedule flaky_reput 0
           (mk_worker (WReput 7) Live [7] 0 0) 7 [Mgr; Mgr] flaky_lost);
    reflexivity.
Defined.

(** The bar of the five jobs: full at the end. *)
Lemma progress_bar_witness :
  0 ≤ bar five_final ≤ counter five_final
  ∧ bar five_final = total_jobs five_final.
Proof.
  destruct (progress_bar five five_schedule five_final eq_refl)
    as (H1 & _ & _ & H4).
  - vm_compute. discriminate.
  - split; [exact H1|]. by apply H4.
Defined.

(** With the handler of [BaseWorker] the job is never counted. *)
Lemma failing_job_blocks_witness :
  7 ∉ counted flaky_stuck ∧ past_poll (mgr flaky_stuck) = false
  ∧ counter flaky_stuck = 0.
Proof.
  destruct (failing_job_blocks process_job flaky stuck_schedule flaky_stuck
              eq_refl) as (_ & _ & H3 & H4).
  destruct (H3 7) as (H31 & H32 & _).
  - unfold flaky, manager_init. simpl. by left.
  - discriminate.
  - split_and!; [done|done|]. by apply H4.
Defined.

(** Two stations: never more than twenty workers, and the run can be
    completed. *)
Lemma seed_weather_data_run_witness :
  (length (workers seeding) ≤ 20)%nat ∧ completes two_stations seeding.
Proof.
  destruct (seed_weather_data_run 4 [11; 12] [Mgr; Mgr; Mgr] seeding)
    as (H1 & _ & _ & H4 & _).
  - vm_compute. discriminate.
  - reflexivity.
  - split; [exact H1|]. apply H4. repeat constructor.
Defined.



(** Half past ten rounds to eleven, exactly half an hour later; a
    quarter to midnight on New Year's Eve rounds to the new year. *)
Lemma rounded_hour_nearest_witness :
  (Time.valid eleven
   ∧ Time.stamp half_past - 1800000000 < Time.stamp eleven
     ≤ Time.stamp half_past + 1800000000
   ∧ Time.stamp eleven = Time.stamp half_past + 1800000000)
  ∧ Time.stamp new_years_eve - 1800000000 < Time.stamp new_year
    ≤ Time.stamp new_years_eve + 1800000000.
Proof.
  split.
  - destruct (rounded_hour_nearest half_past) as [_ H].
    + unfold Time.valid, Time.MAXORDINAL. simpl. lia.
    + destruct (H eleven eq_refl) as (H1 & _ & _ & _ & _ & _ & H7 & H8).
      split_and!; [exact H1|apply H7|apply H7|].
      apply H8. by split_and!.
  - destruct (rounded_hour_nearest new_years_eve) as [_ H].
    + unfold Time.valid, Time.MAXORDINAL. simpl. lia.
    + destruct (H new_year eq_refl) as (_ & _ & _ & _ & _ & _ & H7 & _).
      exact H7.
Defined.

(** Ten o'clock rounds to itself; a microsecond before half past ten
    rounds to ten, half past ten to eleven, and the order is kept. *)
Lemma rounded_hour_stable_witness :
  Time.get_rounded_hour ten = Some ten
  ∧ Time.stamp ten ≤ Time.stamp eleven.
Proof.
  destruct (rounded_hour_stable before_half half_past ten eleven)
    as [H1 H2].
  - unfold Time.valid, Time.MAXORDINAL. simpl. lia.
  - unfold Time.valid, Time.MAXORDINAL. simpl. lia.
  - reflexivity.
  - reflexivity.
  - split; [exact H1|].
    destruct (H2 eq_refl) as (_ & H3 & _). apply H3.
    unfold Time.stamp. simpl. lia.
Defined.

(** The snow depth asked for at 23:45 is that of the next day. *)
Lemma snow_depth_day_witness :
  Weather.get_weather_at_point day_asked day_kriged "snow_depth"
    new_years_eve 0 0
  = Some (Some 738156).
Proof.
  destruct (snow_depth_day day_asked day_kriged new_years_eve 0 0)
    as (_ & _ & H).
  - unfold Time.valid, Time.MAXORDINAL. simpl. lia.
  - apply H; [reflexivity|simpl; lia|unfold Time.MAXORDINAL; simpl; lia].
Defined.

(** The first corrected-archive period has the JSON link; the second,
    which has none, does not undo the choice. *)
Lemma station_data_url_witness :
  Station.get_station_data_url id api_links api_periods api_data "188790"
  = inr "a.json/data.csv"%string.
Proof.
  destruct (station_data_url id api_links api_periods api_data "188790"%string
              archive_periods eq_refl) as (_ & H & _).
  apply (H [] (Station.mk_period "corrected-archive"
                 [Station.mk_link "application/xml" "a.xml";
                  Station.mk_link "application/json" "a.json"])
           [Station.mk_period "latest-day"
              [Station.mk_link "application/json" "d"];
            Station.mk_period "corrected-archive"
              [Station.mk_link "application/xml" "b.xml"]]
           "a.json"%string); try reflexivity.
  repeat constructor; try done.
Defined.

(** Station 97280 has no corrected archive: it is reported and left out. *)
Lemma fetch_skips_value_errors_witness :
  Station.fetch_weather_stations id api_links api_periods api_data
    api_stations api_prepare "air_temperature" no_stations
  = (inr [("188790", "a.json/data.csv")]%string, fetched).
Proof.
  destruct (fetch_skips_value_errors id api_links api_periods api_data
              api_stations api_prepare "air_temperature"%string 1
              ["188790"; "97280"]%string no_stations eq_refl eq_refl)
    as (H & _).
  destruct H as [H _]; [|exact H].
  repeat constructor.
Defined.

(** One row is stored, and counted in the last line. *)
Lemma seed_all_or_nothing_witness :
  ∃ s1 s4 s7 s8,
    api_stations 1 = inr s1 ∧ api_stations 4 = inr s4
    ∧ api_stations 7 = inr s7 ∧ api_stations 8 = inr s8
    ∧ Forall (Station.skippable id api_links api_periods api_data
                api_prepare "air_temperature") s1
    ∧ Forall (Station.skippable id api_links api_periods api_data
                api_prepare "wind") s4
    ∧ Forall (Station.skippable id api_links api_periods api_data
                api_prepare "precipitation") s7
    ∧ Forall (Station.skippable id api_links api_periods api_data
                api_prepare "snow_depth") s8
    ∧ let rows :=
        Station.built id api_links api_periods api_data api_prepare
          "air_temperature" s1
        ++ Station.built id api_links api_periods api_data api_prepare
             "wind" s4
        ++ Station.built id api_links api_periods api_data api_prepare
             "precipitation" s7
        ++ Station.built id api_links api_periods api_data api_prepare
             "snow_depth" s8 in
      Station.table seeded = Station.table no_stations ++ rows
      ∧ last (Station.stdout seeded)
        = Some (Station.LineSeeded (length rows)).
Proof.
  apply (seed_all_or_nothing id api_links api_periods api_data
           api_stations api_prepare no_stations (inr ()) seeded).
  reflexivity.
Defined.

(** Station 11 is counted, station 12 comes back to the queue each time. *)
Lemma unreachable_station_blocks_witness :
  12 ∉ counted outage ∧ past_poll (mgr outage) = false
  ∧ mgr outage ≠ MReturned.
Proof.
  destruct (unreachable_station_blocks station_of status_of records_of
              4 [11; 12] 12 outage_schedule outage) as [_ H].
  - set_solver.
  - reflexivity.
  - destruct (H 12 503 eq_refl eq_refl) as (_ & H2); [discriminate|].
    exact H2.
Defined.

End Examples.
